(** * cbitsets: a fixed-capacity bitset stored as an array of machine words

    Shallow embedding of [src/cbitsets/include/cbitsets.h] and
    [src/cbitsets/src/cbitsets.c], followed by the properties of the
    five functions of the interface.

    Conventions of the embedding.
    - A C integer is a [Z]; the wrap-around of each unsigned type is
      written out ([uint], [ulong]).
    - The heap object behind a [bitset*] is a record holding the word
      array as a list and the [size] field; a function that writes
      through the pointer returns the new record.
    - A [double] is a [spec_float] of the Standard Library at the
      binary64 parameters.
    - A C function returns in the [exec] monad: [Ret v] for normal
      completion, [Undefined] where the C program has undefined behaviour
      (an access outside an array, a conversion out of range),
      [OutOfFuel] where the loop budget of the model is exhausted.
    - [malloc] and [calloc] are assumed to succeed. *)

From Stdlib Require Import ZArith Lia SpecFloat.
From stdpp Require Import base tactics option list.

Local Open Scope Z_scope.

(** ** Outcome of running a C function *)

Inductive exec (A : Type) : Type :=
| Ret (a : A)
| Undefined
| OutOfFuel.

Arguments Ret {A} a.
Arguments Undefined {A}.
Arguments OutOfFuel {A}.

Definition exec_bind {A B : Type} (m : exec A) (k : A -> exec B) : exec B :=
  match m with
  | Ret a => k a
  | Undefined => Undefined
  | OutOfFuel => OutOfFuel
  end.

Definition exec_map {A B : Type} (f : A -> B) (m : exec A) : exec B :=
  exec_bind m (fun a => Ret (f a)).

Notation "'let*' x ':=' m 'in' k" := (exec_bind m (fun x => k))
  (at level 10, x name, m at level 100, k at level 200).

(** ** Integer types *)

(** [unsigned] and [int] are 32 bits wide. *)
Definition UINT_MAX : Z := 2 ^ 32 - 1.
Definition INT_MIN : Z := - 2 ^ 31.
Definition INT_MAX : Z := 2 ^ 31 - 1.

(** Conversion to [unsigned]: reduction modulo [UINT_MAX + 1]. *)
Definition uint (x : Z) : Z := x mod (UINT_MAX + 1).

(** [p[i]] for an array [p] of [length p] elements. *)
Definition array_get {A : Type} (p : list A) (i : Z) : exec A :=
  if i <? 0 then Undefined
  else match p !! Z.to_nat i with
       | Some x => Ret x
       | None => Undefined
       end.

(** ** Doubles *)

Definition double : Type := spec_float.

Definition double_prec : Z := 53.
Definition double_emax : Z := 1024.

(** Conversion of an integer to [double] (round to nearest even). *)
Definition double_of_Z (n : Z) : double :=
  binary_normalize double_prec double_emax n 0 false.

(** The operator [/] on doubles. *)
Definition double_div (x y : double) : double :=
  SFdiv double_prec double_emax x y.

(** [ceil] of [<math.h>]: the least integral double not below [x]. A finite
    [x] is [v * 2 ^ e] with [v] the signed mantissa; it is integral already
    when [0 <= e], and otherwise the least integer not below it is
    [- ((- v) / 2 ^ (- e))], where [/] rounds down. A zero result keeps the
    sign of [x]. *)
Definition ceil (x : double) : double :=
  match x with
  | S754_finite s m e =>
      if 0 <=? e then x
      else
        let v := cond_Zopp s (Zpos m) in
        binary_normalize double_prec double_emax (- ((- v) / 2 ^ (- e))) 0 s
  | _ => x
  end.

(** The integral part of a finite double, rounding toward zero. *)
Definition double_trunc (s : bool) (m : positive) (e : Z) : Z :=
  if 0 <=? e then cond_Zopp s (Zpos m * 2 ^ e)
  else cond_Zopp s (Zpos m / 2 ^ (- e)).

Section ABI.

(** [sizeof(WORD)], where [WORD] is [unsigned long]: 4 on the ILP32 and
    LLP64 data models, 8 on LP64. *)
Variable sizeof_WORD : Z.

(** The greatest value of [size_t]. *)
Variable SIZE_MAX : Z.

(** Conversion to [WORD]. *)
Definition ulong (x : Z) : Z := x mod 2 ^ (sizeof_WORD * 8).

(** Conversion of a double to [size_t]: the fractional part is discarded;
    undefined when the integral part is not a value of [size_t]. *)
Definition size_t_of_double (x : double) : exec Z :=
  match x with
  | S754_zero _ => Ret 0
  | S754_finite s m e =>
      let t := double_trunc s m e in
      if (0 <=? t) && (t <=? SIZE_MAX) then Ret t else Undefined
  | _ => Undefined
  end.

(** ** The bitset *)

(** [typedef struct { WORD *words; size_t size; } bitset;] with the array
    [words] points to. *)
Record bitset : Type := { words : list Z; size : Z }.

(** [unsigned bits_per_word = sizeof(WORD) * 8;] *)
Definition bits_per_word : Z := uint (sizeof_WORD * 8).

(** cbitsets.c, lines 4-10. [calloc] gives [size] words, all zero. *)
Definition bitset_create (num_bits : Z) : exec bitset :=
  let* sz :=
    size_t_of_double
      (ceil (double_div (double_of_Z num_bits) (double_of_Z bits_per_word))) in
  Ret {| words := replicate (Z.to_nat sz) 0; size := sz |}.

(** cbitsets.c, lines 12-17. [/] and [%] on [unsigned] operands cannot
    wrap; [1UL << bit_index] is reduced to the width of [WORD]. *)
Definition bitset_set (set : bitset) (index : Z) : exec bitset :=
  let word_index := index / bits_per_word in
  let bit_index := index mod bits_per_word in
  let* w := array_get (words set) word_index in
  Ret {| words :=
           <[Z.to_nat word_index := Z.lor w (ulong (Z.shiftl 1 bit_index))]>
             (words set);
         size := size set |}.

(** cbitsets.c, lines 19-23. The loop is run with a budget of iterations;
    [indices[i]] is an [int] and is converted to [unsigned] at the call. *)
Fixpoint bitset_fill_loop (fuel : nat) (set : bitset) (indices : list Z)
    (num_indices : Z) (i : Z) : exec bitset :=
  match fuel with
  | O => OutOfFuel
  | S fuel' =>
      if i <? num_indices then
        let* idx := array_get indices i in
        let* set' := bitset_set set (uint idx) in
        bitset_fill_loop fuel' set' indices num_indices (uint (i + 1))
      else Ret set
  end.

Definition bitset_fill (set : bitset) (indices : list Z) (num_indices : Z)
    : exec bitset :=
  bitset_fill_loop (S (Z.to_nat num_indices)) set indices num_indices 0.

(** cbitsets.c, lines 25-32. The counter [i] is an [unsigned] and is
    compared with the [size_t] field at its mathematical value. *)
Fixpoint is_disjoint_loop (fuel : nat) (a b : bitset) (i : Z) : exec bool :=
  match fuel with
  | O => OutOfFuel
  | S fuel' =>
      if i <? size a then
        let* wa := array_get (words a) i in
        let* wb := array_get (words b) i in
        if negb (Z.land wa wb =? 0) then Ret false
        else is_disjoint_loop fuel' a b (uint (i + 1))
      else Ret true
  end.

Definition is_disjoint (a b : bitset) : exec bool :=
  is_disjoint_loop (S (Z.to_nat (size a))) a b 0.

(** cbitsets.c, lines 34-41. *)
Fixpoint not_disjoint_loop (fuel : nat) (a b : bitset) (i : Z) : exec bool :=
  match fuel with
  | O => OutOfFuel
  | S fuel' =>
      if i <? size a then
        let* wa := array_get (words a) i in
        let* wb := array_get (words b) i in
        if negb (Z.land wa wb =? 0) then Ret true
        else not_disjoint_loop fuel' a b (uint (i + 1))
      else Ret false
  end.

Definition not_disjoint (a b : bitset) : exec bool :=
  not_disjoint_loop (S (Z.to_nat (size a))) a b 0.

(** ** Vocabulary of the properties *)

(** The values of [WORD]. *)
Definition is_word (w : Z) : Prop := 0 <= w < 2 ^ (sizeof_WORD * 8).

(** A bitset as the interface builds it: [size] is the length of the
    array, the counter of the comparison loops can reach it, and every
    element is a [WORD]. *)
Definition bitset_wf (b : bitset) : Prop :=
  size b = Z.of_nat (length (words b)) /\
  size b <= UINT_MAX /\
  Forall is_word (words b).

(** Word [i] of the array, 0 outside of it. *)
Definition word (b : bitset) (i : Z) : Z :=
  if i <? 0 then 0 else default 0 (words b !! Z.to_nat i).

(** Bit [i] of the set is bit [i mod bits_per_word] of word
    [i / bits_per_word]. *)
Definition bit_is_set (b : bitset) (i : Z) : bool :=
  Z.testbit (word b (i / bits_per_word)) (i mod bits_per_word).

(** The indices [bitset_set] accepts. *)
Definition valid_index (b : bitset) (index : Z) : Prop :=
  0 <= index < size b * bits_per_word.

(** An [int] array of valid indices. *)
Definition valid_indices (b : bitset) (indices : list Z) : Prop :=
  Forall (fun x => valid_index b x /\ x <= INT_MAX) indices.

(** [bitset_set(set, i1); ...; bitset_set(set, in);] *)
Fixpoint set_all (set : bitset) (indices : list Z) : exec bitset :=
  match indices with
  | [] => Ret set
  | index :: rest =>
      let* set' := bitset_set set index in set_all set' rest
  end.

(** A call of the interface on an existing bitset [set]: one of the two
    mutators, or one of the two comparisons with another bitset, which
    read [set] and leave it as it is. *)
Inductive call : Type :=
| call_set (index : Z)
| call_fill (indices : list Z) (num_indices : Z)
| call_is_disjoint (other : bitset)
| call_not_disjoint (other : bitset).

Definition run_call (set : bitset) (c : call) : exec bitset :=
  match c with
  | call_set index => bitset_set set index
  | call_fill indices num_indices => bitset_fill set indices num_indices
  | call_is_disjoint other => let* _ := is_disjoint set other in Ret set
  | call_not_disjoint other => let* _ := not_disjoint set other in Ret set
  end.

Fixpoint run_calls (set : bitset) (cs : list call) : exec bitset :=
  match cs with
  | [] => Ret set
  | c :: rest => let* set' := run_call set c in run_calls set' rest
  end.

Definition valid_call (b : bitset) (c : call) : Prop :=
  match c with
  | call_set index => valid_index b index
  | call_fill indices num_indices =>
      valid_indices b indices /\
      num_indices = Z.of_nat (length indices) /\ num_indices <= UINT_MAX
  | call_is_disjoint other | call_not_disjoint other =>
      bitset_wf other /\ size b = size other
  end.

(** The ceiling of [n / d] in integer arithmetic. *)
Definition ceil_div (n d : Z) : Z := (n + d - 1) / d.

(** The double [x] is finite and its value is the fraction [a / b]: with
    [x = v * 2 ^ e], either [v * 2 ^ e * b = a] or, for a negative [e],
    [v * b = a * 2 ^ (- e)]. *)
Definition double_exact (x : double) (a b : Z) : Prop :=
  match x with
  | S754_zero _ => a = 0
  | S754_finite s m e =>
      if 0 <=? e then cond_Zopp s (Zpos m) * 2 ^ e * b = a
      else cond_Zopp s (Zpos m) * b = a * 2 ^ (- e)
  | _ => False
  end.

#[global] Instance is_word_dec w : Decision (is_word w) :=
  and_dec (Z.le_dec 0 w) (Z.lt_dec w (2 ^ (sizeof_WORD * 8))).

#[global] Instance bitset_wf_dec b : Decision (bitset_wf b) :=
  and_dec (Z.eq_dec (size b) (Z.of_nat (length (words b))))
    (and_dec (Z.le_dec (size b) UINT_MAX) (Forall_dec is_word (words b))).

#[global] Instance valid_index_dec b index : Decision (valid_index b index) :=
  and_dec (Z.le_dec 0 index) (Z.lt_dec index (size b * bits_per_word)).

#[global] Instance valid_indices_dec b indices : Decision (valid_indices b indices) :=
  Forall_dec (fun x => valid_index b x /\ x <= INT_MAX) indices.

#[global] Instance valid_call_dec b c : Decision (valid_call b c).
Proof. destruct c; simpl; apply _. Defined.

(** ** Assumptions on the ABI *)

Hypothesis WORD_abi : sizeof_WORD = 4 \/ sizeof_WORD = 8.
Hypothesis size_t_abi : UINT_MAX <= SIZE_MAX.

(** ** Basic facts *)

Lemma bits_per_word_cases : bits_per_word = 32 \/ bits_per_word = 64.
Proof using WORD_abi.
  unfold bits_per_word. destruct WORD_abi as [-> | ->]; [left | right]; reflexivity.
Qed.

Lemma bits_per_word_eq : bits_per_word = sizeof_WORD * 8.
Proof using WORD_abi.
  unfold bits_per_word. destruct WORD_abi as [-> | ->]; reflexivity.
Qed.

Lemma bits_per_word_pos : 0 < bits_per_word.
Proof using WORD_abi. destruct bits_per_word_cases; lia. Qed.

Lemma uint_small x : 0 <= x <= UINT_MAX -> uint x = x.
Proof. intros H. unfold uint. apply Z.mod_small. lia. Qed.

Lemma array_get_Ret {A} (p : list A) i x :
  array_get p i = Ret x <-> 0 <= i /\ p !! Z.to_nat i = Some x.
Proof.
  unfold array_get. destruct (Z.ltb_spec i 0).
  - split; [discriminate | lia].
  - destruct (p !! Z.to_nat i) as [y|]; split.
    + intros [= ->]. auto.
    + intros [_ [= ->]]. reflexivity.
    + discriminate.
    + intros [_ [=]].
Qed.

Lemma array_get_not_OutOfFuel {A} (p : list A) i : array_get p i <> OutOfFuel.
Proof. unfold array_get. destruct (i <? 0), (p !! Z.to_nat i); discriminate. Qed.

Lemma array_get_in_bounds {A} (p : list A) i :
  0 <= i < Z.of_nat (length p) -> exists x, array_get p i = Ret x.
Proof.
  intros Hi. destruct (lookup_lt_is_Some_2 p (Z.to_nat i)) as [x Hx]; [lia|].
  exists x. apply array_get_Ret. split; [lia | done].
Qed.

Lemma array_get_word b i w : array_get (words b) i = Ret w -> word b i = w.
Proof.
  intros [Hi Hw]%array_get_Ret. unfold word.
  destruct (Z.ltb_spec i 0); [lia|]. by rewrite Hw.
Qed.

Lemma word_is_word b i : bitset_wf b -> is_word (word b i).
Proof using WORD_abi.
  intros (_ & _ & Hall). unfold word.
  assert (is_word 0) as H0.
  { unfold is_word. destruct WORD_abi as [-> | ->]; lia. }
  destruct (i <? 0); [done|].
  destruct (words b !! Z.to_nat i) as [w|] eqn:Hw; [|done].
  simpl. eapply Forall_lookup_1; eauto.
Qed.

Lemma word_outside b i : bitset_wf b -> ~ (0 <= i < size b) -> word b i = 0.
Proof.
  intros (Hlen & _) Hi. unfold word.
  destruct (Z.ltb_spec i 0); [done|].
  rewrite lookup_ge_None_2; [done | lia].
Qed.

Lemma testbit_word_high w k : is_word w -> bits_per_word <= k -> Z.testbit w k = false.
Proof using WORD_abi.
  intros Hw Hk. rewrite bits_per_word_eq in Hk.
  destruct (Z.eq_dec w 0) as [-> | Hne]; [apply Z.bits_0|].
  apply Z.bits_above_log2; [unfold is_word in Hw; lia|].
  apply Z.log2_lt_pow2; [unfold is_word in Hw; lia|].
  assert (2 ^ (sizeof_WORD * 8) <= 2 ^ k) by (apply Z.pow_le_mono_r; lia).
  unfold is_word in Hw. lia.
Qed.

(** ** Doubles: conversion, division by the word width, ceiling *)

(** The number of binary digits of a positive number. *)
Lemma digits2_pos_bounds p :
  2 ^ (Zpos (digits2_pos p) - 1) <= Zpos p < 2 ^ Zpos (digits2_pos p).
Proof.
  induction p as [p IH | p IH |]; simpl digits2_pos.
  - rewrite Pos2Z.inj_succ.
    replace (Z.succ (Zpos (digits2_pos p)) - 1)
      with (Z.succ (Zpos (digits2_pos p) - 1)) by lia.
    rewrite !Z.pow_succ_r by lia. lia.
  - rewrite Pos2Z.inj_succ.
    replace (Z.succ (Zpos (digits2_pos p)) - 1)
      with (Z.succ (Zpos (digits2_pos p) - 1)) by lia.
    rewrite !Z.pow_succ_r by lia. lia.
  - simpl. lia.
Qed.

Lemma digits2_pos_le p k : 0 <= k -> Zpos p < 2 ^ k -> Zpos (digits2_pos p) <= k.
Proof.
  intros Hk Hp. pose proof (digits2_pos_bounds p) as [Hlo _].
  destruct (Z.le_gt_cases (Zpos (digits2_pos p)) k) as [|Hgt]; [done|].
  assert (2 ^ k <= 2 ^ (Zpos (digits2_pos p) - 1)) by (apply Z.pow_le_mono_r; lia).
  lia.
Qed.

(** Appending [k] zero digits to a mantissa. *)
Lemma iter_xO_digits p k :
  Zpos (digits2_pos (Pos.iter xO p k)) = Zpos (digits2_pos p) + Zpos k.
Proof.
  induction k as [|k IH] using Pos.peano_ind.
  - simpl. lia.
  - rewrite Pos.iter_succ. simpl digits2_pos. lia.
Qed.

Lemma iter_xO_value p k : Zpos (Pos.iter xO p k) = Zpos p * 2 ^ Zpos k.
Proof.
  induction k as [|k IH] using Pos.peano_ind.
  - simpl. lia.
  - rewrite Pos.iter_succ, Pos2Z.inj_succ, Z.pow_succ_r by lia.
    rewrite Pos2Z.inj_xO, IH. lia.
Qed.

Lemma fexp_normal e :
  -1074 <= e - 53 -> fexp double_prec double_emax e = e - 53.
Proof. unfold fexp, emin, double_prec, double_emax. lia. Qed.

(** Rounding leaves a mantissa of 53 digits with an exponent in range as it
    is. *)
Lemma binary_round_aux_53 sx m e :
  Zpos (digits2_pos m) = 53 -> -1074 <= e <= 971 ->
  binary_round_aux double_prec double_emax sx (Zpos m) e loc_Exact =
    S754_finite sx m e.
Proof.
  intros Hd He. unfold binary_round_aux, shr_fexp. simpl Zdigits2. rewrite Hd.
  rewrite fexp_normal by lia. replace (53 + e - 53 - e) with 0 by lia.
  simpl. rewrite Hd.
  rewrite fexp_normal by lia. replace (53 + e - 53 - e) with 0 by lia.
  simpl. destruct (Z.leb_spec e (double_emax - double_prec)); [done|].
  unfold double_emax, double_prec in *. lia.
Qed.

(** Rounding drops the last digit of an even mantissa of 54 digits. *)
Lemma binary_round_aux_54 sx m e :
  Zpos (digits2_pos m) = 53 -> -1075 <= e <= 970 ->
  binary_round_aux double_prec double_emax sx (Zpos m~0) e loc_Exact =
    S754_finite sx m (e + 1).
Proof.
  intros Hd He. unfold binary_round_aux, shr_fexp. simpl Zdigits2.
  rewrite Pos2Z.inj_succ, Hd.
  rewrite fexp_normal by lia. replace (Z.succ 53 + e - 53 - e) with 1 by lia.
  simpl. rewrite Hd.
  rewrite fexp_normal by lia. replace (53 + (e + 1) - 53 - (e + 1)) with 0 by lia.
  simpl. destruct (Z.leb_spec (e + 1) (double_emax - double_prec)); [done|].
  unfold double_emax, double_prec in *. lia.
Qed.

(** Conversion of a positive integer of fewer than 53 digits shifts the
    mantissa to 53 digits. *)
Lemma binary_round_short sx p :
  Zpos (digits2_pos p) < 53 ->
  binary_round double_prec double_emax sx p 0 =
    S754_finite sx (Pos.iter xO p (Z.to_pos (53 - Zpos (digits2_pos p))))
      (Zpos (digits2_pos p) - 53).
Proof.
  intros Hd. unfold binary_round, shl_align.
  rewrite fexp_normal by lia.
  destruct (Zpos (digits2_pos p) + 0 - 53 - 0) as [|q|q] eqn:Hq; [lia | lia |].
  replace (Z.to_pos (53 - Zpos (digits2_pos p))) with q by lia.
  replace (Zpos (digits2_pos p) + 0 - 53) with (Zpos (digits2_pos p) - 53) by lia.
  apply binary_round_aux_53; [|lia].
  rewrite iter_xO_digits. lia.
Qed.

Lemma double_of_Z_short n :
  0 < n < 2 ^ 52 ->
  exists m d, double_of_Z n = S754_finite false m (d - 53) /\
    1 <= d < 53 /\ Zpos m = n * 2 ^ (53 - d) /\ Zpos (digits2_pos m) = 53.
Proof.
  intros Hn. destruct n as [|p|p]; [lia | | lia].
  pose proof (digits2_pos_le p 52) as Hd.
  exists (Pos.iter xO p (Z.to_pos (53 - Zpos (digits2_pos p)))),
         (Zpos (digits2_pos p)).
  unfold double_of_Z, binary_normalize.
  rewrite binary_round_short by lia. split; [done|]. split; [lia|].
  rewrite iter_xO_value, iter_xO_digits. rewrite Z2Pos.id by lia.
  split; [done | lia].
Qed.

(** Division by a power of two held in a 53-digit mantissa keeps the
    mantissa and subtracts the exponents. *)
Lemma double_div_pow2 sx mx ex my ey :
  Zpos (digits2_pos mx) = 53 -> Zpos my = 2 ^ 52 ->
  -1022 <= ex - ey - 52 <= 971 ->
  double_div (S754_finite sx mx ex) (S754_finite false my ey) =
    S754_finite sx mx (ex - ey - 52).
Proof.
  intros Hd Hmy He.
  assert (Zpos (digits2_pos my) = 53) as Hdy.
  { assert (my = (2 ^ 52)%positive) as -> by lia. reflexivity. }
  unfold double_div, SFdiv, SFdiv_core_binary, Zdigits2.
  rewrite Hd, Hdy. rewrite fexp_normal by lia.
  replace (Z.min (53 + ex - (53 + ey) - 53) (ex - ey)) with (ex - ey - 53) by lia.
  replace (ex - ey - (ex - ey - 53)) with 53 by lia.
  rewrite Z.shiftl_mul_pow2 by lia.
  replace (Zpos mx * 2 ^ 53) with (Zpos mx~0 * Zpos my)
    by (rewrite Pos2Z.inj_xO; lia).
  pose proof (Z.div_eucl_eq (Zpos mx~0 * Zpos my) (Zpos my)) as Heq.
  pose proof (Z.mod_pos_bound (Zpos mx~0 * Zpos my) (Zpos my)) as Hb.
  unfold Z.modulo in Hb.
  destruct (Z.div_eucl (Zpos mx~0 * Zpos my) (Zpos my)) as [q r].
  assert (r = 0 /\ q = Zpos mx~0) as [-> ->] by nia.
  rewrite xorb_false_r.
  assert (new_location (Zpos my) 0 = loc_Exact) as ->.
  { unfold new_location. rewrite Hmy. reflexivity. }
  rewrite binary_round_aux_54 by (done || lia). f_equal. lia.
Qed.

(** The integer ceiling. *)
Lemma ceil_div_bounds n d :
  0 < d -> d * (ceil_div n d - 1) < n <= d * ceil_div n d.
Proof.
  intros Hd. unfold ceil_div.
  pose proof (Z.div_mod (n + d - 1) d).
  pose proof (Z.mod_pos_bound (n + d - 1) d). lia.
Qed.

Lemma ceil_div_unique n d q :
  0 < d -> d * (q - 1) < n <= d * q -> ceil_div n d = q.
Proof.
  intros Hd Hq. unfold ceil_div. symmetry.
  apply Z.div_unique with (n + d - 1 - d * q); lia.
Qed.

Lemma ceil_div_opp n d : 0 < d -> - ((- n) / d) = ceil_div n d.
Proof.
  intros Hd. symmetry. apply ceil_div_unique; [done|].
  pose proof (Z.div_mod (- n) d). pose proof (Z.mod_pos_bound (- n) d). lia.
Qed.

(** Two fractions of equal value have the same ceiling. *)
Lemma ceil_div_scale m E n d :
  0 < E -> 0 < d -> m * d = n * E -> ceil_div m E = ceil_div n d.
Proof.
  intros HE Hd Heq. pose proof (ceil_div_bounds n d Hd) as [Hlo Hhi].
  apply ceil_div_unique; [done|]. split.
  - apply (Z.mul_lt_mono_pos_r d); [done|].
    apply (Z.mul_lt_mono_pos_r E) in Hlo; [|done]. lia.
  - apply (Z.mul_le_mono_pos_r _ _ d); [done|].
    apply (Z.mul_le_mono_pos_r _ _ E) in Hhi; [|done]. lia.
Qed.

Lemma size_t_of_double_of_Z n :
  0 <= n <= UINT_MAX -> size_t_of_double (double_of_Z n) = Ret n.
Proof using size_t_abi.
  intros Hn. destruct (Z.eq_dec n 0) as [-> | Hne]; [done|].
  destruct (double_of_Z_short n) as (m & d & -> & Hd & Hm & _).
  { unfold UINT_MAX in Hn. lia. }
  unfold size_t_of_double, double_trunc.
  destruct (Z.leb_spec 0 (d - 53)); [lia|]. simpl.
  rewrite Hm. replace (- (d - 53)) with (53 - d) by lia.
  rewrite Z.div_mul by (apply Z.pow_nonzero; lia).
  destruct (Z.leb_spec 0 n); [|lia].
  destruct (Z.leb_spec n SIZE_MAX); [done | lia].
Qed.

(** The word width as a double: the mantissa is [2 ^ 52]. *)
Lemma double_of_Z_bits_per_word :
  exists my k, double_of_Z bits_per_word = S754_finite false my (k - 52) /\
    Zpos my = 2 ^ 52 /\ bits_per_word = 2 ^ k /\ 5 <= k <= 6.
Proof using WORD_abi.
  destruct bits_per_word_cases as [-> | ->].
  - exists (2 ^ 52)%positive, 5. done.
  - exists (2 ^ 52)%positive, 6. done.
Qed.

(** The quotient of line 7 is the double [m * 2 ^ e] with
    [m * bits_per_word = num_bits * 2 ^ (- e)]: no rounding takes place. *)
Lemma double_div_bits_per_word n :
  0 < n <= UINT_MAX ->
  exists m e,
    double_div (double_of_Z n) (double_of_Z bits_per_word) = S754_finite false m e /\
    e < 0 /\ Zpos m * bits_per_word = n * 2 ^ (- e).
Proof using WORD_abi.
  intros Hn.
  destruct double_of_Z_bits_per_word as (my & k & -> & Hmy & -> & Hk).
  destruct (double_of_Z_short n) as (m & d & -> & Hd & Hm & Hdm).
  { unfold UINT_MAX in Hn. lia. }
  rewrite double_div_pow2 by (done || lia).
  exists m, (d - 53 - (k - 52) - 52). split; [done|]. split; [lia|].
  rewrite Hm. replace (- (d - 53 - (k - 52) - 52)) with ((53 - d) + k) by lia.
  rewrite Z.pow_add_r by lia. lia.
Qed.

(** The word count that line 7 computes in double arithmetic is the integer
    ceiling. *)
Lemma word_count_exact n :
  0 <= n <= UINT_MAX ->
  size_t_of_double
    (ceil (double_div (double_of_Z n) (double_of_Z bits_per_word))) =
    Ret (ceil_div n bits_per_word).
Proof using WORD_abi size_t_abi.
  intros Hn. pose proof bits_per_word_pos as Hpos.
  destruct (Z.eq_dec n 0) as [-> | Hne].
  { destruct bits_per_word_cases as [-> | ->]; reflexivity. }
  destruct (double_div_bits_per_word n) as (m & e & -> & He & Hm); [lia|].
  unfold ceil. destruct (Z.leb_spec 0 e); [lia|].
  assert (0 < 2 ^ (- e)) as Hpow by (apply Z.pow_pos_nonneg; lia).
  assert (- (- cond_Zopp false (Zpos m) / 2 ^ (- e)) =
          ceil_div n bits_per_word) as ->.
  { simpl cond_Zopp. rewrite ceil_div_opp by done. by apply ceil_div_scale. }
  apply size_t_of_double_of_Z.
  pose proof (ceil_div_bounds n bits_per_word Hpos). nia.
Qed.

(** ** The comparison loops *)

Lemma is_disjoint_loop_not_disjoint_loop fuel a b i :
  is_disjoint_loop fuel a b i = exec_map negb (not_disjoint_loop fuel a b i).
Proof.
  revert i. induction fuel as [|fuel IH]; intros i; simpl; [done|].
  destruct (i <? size a); [|done].
  destruct (array_get (words a) i) as [wa| |]; simpl; try done.
  destruct (array_get (words b) i) as [wb| |]; simpl; try done.
  destruct (Z.land wa wb =? 0); simpl; [apply IH | done].
Qed.

Lemma is_disjoint_loop_sym fuel a b i :
  size a = size b ->
  is_disjoint_loop fuel a b i = is_disjoint_loop fuel b a i.
Proof.
  intros Hsz. revert i. induction fuel as [|fuel IH]; intros i; simpl; [done|].
  rewrite <- Hsz. destruct (i <? size a); [|done].
  destruct (array_get (words a) i) as [wa| |] eqn:Ha,
           (array_get (words b) i) as [wb| |] eqn:Hb; simpl; try done.
  - rewrite (Z.land_comm wb wa). destruct (Z.land wa wb =? 0); simpl; [apply IH | done].
  - by apply array_get_not_OutOfFuel in Hb.
  - by apply array_get_not_OutOfFuel in Ha.
Qed.

(** On well-formed bitsets of equal size the loop started at [i] with more
    than [size a - i] iterations of budget returns, and it returns [true]
    exactly when every pair of words from [i] on has a zero conjunction. *)
Lemma is_disjoint_loop_spec fuel a b i :
  bitset_wf a -> bitset_wf b -> size a = size b ->
  0 <= i <= size a -> (Z.to_nat (size a - i) < fuel)%nat ->
  exists r, is_disjoint_loop fuel a b i = Ret r /\
    (r = true <-> forall j, i <= j < size a -> Z.land (word a j) (word b j) = 0).
Proof.
  intros Ha Hb Hsz. revert i.
  induction fuel as [|fuel IH]; intros i Hi Hfuel; [lia|]. simpl.
  destruct (Z.ltb_spec i (size a)) as [Hlt | Hge].
  - destruct (array_get_in_bounds (words a) i) as [wa Hwa]; [destruct Ha; lia|].
    destruct (array_get_in_bounds (words b) i) as [wb Hwb]; [destruct Hb; lia|].
    rewrite Hwa, Hwb. simpl.
    apply array_get_word in Hwa, Hwb.
    destruct (Z.eqb_spec (Z.land wa wb) 0) as [Hz | Hnz]; simpl.
    + rewrite uint_small by (destruct Ha as (_ & ? & _); lia).
      destruct (IH (i + 1)) as (r & Hr & Hiff); [lia | lia |].
      exists r. split; [done|]. rewrite Hiff. split.
      * intros H j Hj. destruct (Z.eq_dec j i) as [-> | Hne].
        -- by rewrite Hwa, Hwb.
        -- apply H. lia.
      * intros H j Hj. apply H. lia.
    + exists false. split; [done|]. split; [done|].
      intros H. exfalso. apply Hnz. rewrite <- Hwa, <- Hwb. apply H. lia.
  - exists true. split; [done|]. split; [|done]. intros _ j Hj. lia.
Qed.

Lemma is_disjoint_returns a b :
  bitset_wf a -> bitset_wf b -> size a = size b ->
  exists r, is_disjoint a b = Ret r.
Proof.
  intros Ha Hb Hsz.
  destruct (is_disjoint_loop_spec (S (Z.to_nat (size a))) a b 0)
    as (r & Hr & _); [done | done | done | destruct Ha; lia | lia |].
  by exists r.
Qed.

(** A loop that ended, by a return or by undefined behaviour, ends the same
    way under a larger budget. *)
Lemma is_disjoint_loop_fuel_mono fuel fuel' a b i :
  (fuel <= fuel')%nat ->
  is_disjoint_loop fuel a b i <> OutOfFuel ->
  is_disjoint_loop fuel' a b i = is_disjoint_loop fuel a b i.
Proof.
  revert fuel' i. induction fuel as [|fuel IH]; intros fuel' i Hle; simpl; [done|].
  destruct fuel' as [|fuel']; [lia|]. simpl.
  destruct (i <? size a); [|done].
  destruct (array_get (words a) i) as [wa| |]; simpl; try done.
  destruct (array_get (words b) i) as [wb| |]; simpl; try done.
  destruct (Z.land wa wb =? 0); simpl; [|done]. apply IH. lia.
Qed.

(** Whatever the arrays, a [size] that the counter can reach is reached
    within [size a - i] iterations: the budget of [is_disjoint] is enough. *)
Lemma is_disjoint_loop_terminates fuel a b i :
  size a <= UINT_MAX -> 0 <= i <= size a ->
  (Z.to_nat (size a - i) < fuel)%nat ->
  is_disjoint_loop fuel a b i <> OutOfFuel.
Proof.
  intros Hmax. revert i.
  induction fuel as [|fuel IH]; intros i Hi Hfuel; [lia|]. simpl.
  destruct (Z.ltb_spec i (size a)) as [Hlt | Hge]; [|done].
  destruct (array_get (words a) i) as [wa| |] eqn:Hwa; simpl; try done.
  2:{ by apply array_get_not_OutOfFuel in Hwa. }
  destruct (array_get (words b) i) as [wb| |] eqn:Hwb; simpl; try done.
  2:{ by apply array_get_not_OutOfFuel in Hwb. }
  destruct (Z.land wa wb =? 0); simpl; [|done].
  rewrite uint_small by lia. apply IH; lia.
Qed.

(** Words and bits: two words have a zero conjunction at every index
    exactly when no bit is set in both sets. *)
Lemma words_disjoint_bits a b :
  bitset_wf a -> bitset_wf b -> size a = size b ->
  (forall j, 0 <= j < size a -> Z.land (word a j) (word b j) = 0) <->
  (forall i, ~ (bit_is_set a i = true /\ bit_is_set b i = true)).
Proof using WORD_abi.
  intros Ha Hb Hsz. pose proof bits_per_word_pos as Hpos. split.
  - intros H i [Hia Hib]. unfold bit_is_set in *.
    set (j := i / bits_per_word) in *. set (k := i mod bits_per_word) in *.
    destruct (decide (0 <= j < size a)) as [Hj | Hj].
    + specialize (H j Hj).
      assert (Z.testbit (Z.land (word a j) (word b j)) k = true) as Hk.
      { rewrite Z.land_spec, Hia, Hib. done. }
      rewrite H, Z.bits_0 in Hk. done.
    + rewrite (word_outside a j) in Hia by done. by rewrite Z.bits_0 in Hia.
  - intros H j Hj. apply Z.bits_inj'. intros k Hk.
    rewrite Z.bits_0, Z.land_spec.
    destruct (Z.lt_ge_cases k bits_per_word) as [Hlt | Hge].
    + specialize (H (j * bits_per_word + k)). unfold bit_is_set in H.
      replace ((j * bits_per_word + k) / bits_per_word) with j in H.
      2:{ apply Z.div_unique with k; lia. }
      replace ((j * bits_per_word + k) mod bits_per_word) with k in H.
      2:{ apply Z.mod_unique with j; lia. }
      destruct (Z.testbit (word a j) k), (Z.testbit (word b j) k); try done.
      exfalso. by apply H.
    + rewrite (testbit_word_high (word a j)); [done | by apply word_is_word | done].
Qed.

(** ** Setting one bit *)

Lemma array_get_insert_eq {A} (p : list A) i x y :
  array_get p i = Ret x -> array_get (<[Z.to_nat i := y]> p) i = Ret y.
Proof.
  intros [Hi Hx]%array_get_Ret. apply array_get_Ret. split; [done|].
  apply list_lookup_insert_eq. by eapply lookup_lt_Some.
Qed.

Lemma array_get_insert_ne {A} (p : list A) i j y :
  0 <= i -> i <> j -> array_get (<[Z.to_nat i := y]> p) j = array_get p j.
Proof.
  intros Hi Hne. unfold array_get. destruct (Z.ltb_spec j 0); [done|].
  rewrite list_lookup_insert_ne by lia. done.
Qed.

Lemma ulong_bit k : 0 <= k < bits_per_word -> ulong (Z.shiftl 1 k) = 2 ^ k.
Proof using WORD_abi.
  intros Hk. pose proof bits_per_word_eq as Heq. unfold ulong.
  rewrite Z.shiftl_1_l. apply Z.mod_small. split; [lia|].
  apply Z.pow_lt_mono_r; lia.
Qed.

Lemma lor_is_word x y : is_word x -> is_word y -> is_word (Z.lor x y).
Proof using WORD_abi.
  unfold is_word. intros Hx Hy.
  assert (0 <= Z.lor x y) as Hnn by (apply Z.lor_nonneg; lia).
  split; [done|].
  destruct (Z.eq_dec (Z.lor x y) 0) as [-> | Hne]; [lia|].
  apply Z.log2_lt_pow2; [lia|]. rewrite Z.log2_lor by lia.
  assert (0 <= sizeof_WORD * 8) as Hw by (destruct WORD_abi; lia).
  destruct (Z.eq_dec x 0) as [-> | Hx0], (Z.eq_dec y 0) as [-> | Hy0].
  - done.
  - rewrite Z.max_r by (apply Z.log2_nonneg). apply Z.log2_lt_pow2; lia.
  - rewrite Z.max_l by (apply Z.log2_nonneg). apply Z.log2_lt_pow2; lia.
  - apply Z.max_lub_lt; apply Z.log2_lt_pow2; lia.
Qed.

Lemma index_split index :
  index = (index / bits_per_word) * bits_per_word + index mod bits_per_word /\
  0 <= index mod bits_per_word < bits_per_word.
Proof using WORD_abi.
  pose proof bits_per_word_pos as Hpos. split.
  - rewrite Z.mul_comm. apply Z.div_mod. lia.
  - apply Z.mod_pos_bound. done.
Qed.

Lemma valid_index_word b index :
  bitset_wf b -> valid_index b index ->
  0 <= index / bits_per_word < Z.of_nat (length (words b)).
Proof using WORD_abi.
  intros (Hlen & _) [Hlo Hhi]. pose proof bits_per_word_pos as Hpos.
  rewrite <- Hlen. split.
  - apply Z.div_pos; lia.
  - apply Z.div_lt_upper_bound; lia.
Qed.

(** The closed form of [bitset_set] at a valid index. *)
Lemma bitset_set_valid b index :
  bitset_wf b -> valid_index b index ->
  bitset_set b index =
    Ret {| words :=
             <[Z.to_nat (index / bits_per_word) :=
                 Z.lor (word b (index / bits_per_word))
                       (2 ^ (index mod bits_per_word))]> (words b);
           size := size b |}.
Proof using WORD_abi.
  intros Hwf Hv. unfold bitset_set.
  destruct (array_get_in_bounds (words b) (index / bits_per_word)) as [w Hw].
  { by apply valid_index_word. }
  rewrite Hw. simpl. rewrite (array_get_word _ _ _ Hw).
  rewrite ulong_bit by apply index_split. done.
Qed.

Lemma bitset_set_returns b index :
  bitset_wf b -> valid_index b index -> exists b', bitset_set b index = Ret b'.
Proof using WORD_abi. intros Hwf Hv. eexists. by apply bitset_set_valid. Qed.

Lemma bitset_set_size b index b' :
  bitset_set b index = Ret b' ->
  size b' = size b /\ length (words b') = length (words b).
Proof.
  unfold bitset_set.
  destruct (array_get (words b) (index / bits_per_word)) as [w| |]; simpl; try done.
  intros [= <-]. simpl. by rewrite length_insert.
Qed.

Lemma bitset_set_wf b index b' :
  bitset_wf b -> valid_index b index -> bitset_set b index = Ret b' ->
  bitset_wf b'.
Proof using WORD_abi.
  intros Hwf Hv Hset.
  destruct (bitset_set_size _ _ _ Hset) as [Hsz Hlen].
  rewrite bitset_set_valid in Hset by done. injection Hset as <-.
  pose proof Hwf as (Hl & Hmax & Hall). split_and!; simpl.
  - rewrite length_insert. done.
  - done.
  - apply Forall_insert; [done|]. apply lor_is_word.
    + apply word_is_word. done.
    + pose proof (index_split index) as [_ Hk].
      pose proof bits_per_word_eq as Heq. unfold is_word. split; [apply Z.pow_nonneg; lia|].
      apply Z.pow_lt_mono_r; lia.
Qed.

(** Reading a bit after [bitset_set]: the bit at [index] is set, every
    other bit is as before. *)
Lemma bitset_set_bit b index b' i :
  bitset_wf b -> valid_index b index -> bitset_set b index = Ret b' ->
  bit_is_set b' i = (i =? index) || bit_is_set b i.
Proof using WORD_abi.
  intros Hwf Hv Hset. rewrite bitset_set_valid in Hset by done.
  injection Hset as <-.
  pose proof (valid_index_word b index Hwf Hv) as Hj.
  pose proof (index_split index) as [Hidx Hk].
  pose proof (index_split i) as [Hi Hk'].
  unfold bit_is_set.
  set (j := index / bits_per_word) in *. set (k := index mod bits_per_word) in *.
  set (j' := i / bits_per_word) in *. set (k' := i mod bits_per_word) in *.
  destruct (Z.eq_dec j' j) as [Hjj | Hjj].
  - rewrite Hjj.
    assert (word {| words := <[Z.to_nat j := Z.lor (word b j) (2 ^ k)]> (words b);
                    size := size b |} j = Z.lor (word b j) (2 ^ k)) as ->.
    { unfold word at 1. simpl. destruct (Z.ltb_spec j 0); [lia|].
      rewrite list_lookup_insert_eq by lia. done. }
    rewrite Z.lor_spec, Z.pow2_bits_eqb by lia.
    rewrite orb_comm. f_equal.
    destruct (Z.eqb_spec k k'), (Z.eqb_spec i index); try done; lia.
  - assert (word {| words := <[Z.to_nat j := Z.lor (word b j) (2 ^ k)]> (words b);
                    size := size b |} j' = word b j') as ->.
    { unfold word. simpl. destruct (Z.ltb_spec j' 0); [done|].
      rewrite list_lookup_insert_ne by lia. done. }
    destruct (Z.eqb_spec i index) as [-> | _]; [done | done].
Qed.

(** C4. At a valid index [bitset_set] returns; in the bitset it leaves,
    bit [index] is set and every other bit has the value it had. The word
    count does not change. *)
Theorem bitset_set_frame b index :
  bitset_wf b -> valid_index b index ->
  exists b', bitset_set b index = Ret b' /\
    size b' = size b /\
    bit_is_set b' index = true /\
    forall i, i <> index -> bit_is_set b' i = bit_is_set b i.
Proof using WORD_abi.
  intros Hwf Hv. eexists. split; [by apply bitset_set_valid|].
  pose proof (bitset_set_valid b index Hwf Hv) as Hset.
  split_and!.
  - done.
  - rewrite (bitset_set_bit _ _ _ _ Hwf Hv Hset), Z.eqb_refl. done.
  - intros i Hne. rewrite (bitset_set_bit _ _ _ _ Hwf Hv Hset).
    destruct (Z.eqb_spec i index); done.
Qed.

(** C6. [bitset_set] is idempotent: at a valid index a second call returns
    the bitset the first call left, so every bit reads the same after two
    calls as after one. *)
Theorem bitset_set_idempotent b index :
  bitset_wf b -> valid_index b index ->
  exists b' b'', bitset_set b index = Ret b' /\
    bitset_set b' index = Ret b'' /\
    b'' = b' /\
    forall i, bit_is_set b'' i = bit_is_set b' i.
Proof using WORD_abi.
  intros Hwf Hv.
  pose proof (bitset_set_valid b index Hwf Hv) as Hset.
  pose proof (bitset_set_wf _ _ _ Hwf Hv Hset) as Hwf'.
  pose proof (valid_index_word b index Hwf Hv) as Hj.
  eexists. exists
    {| words :=
         <[Z.to_nat (index / bits_per_word) :=
             Z.lor (word b (index / bits_per_word))
                   (2 ^ (index mod bits_per_word))]> (words b);
       size := size b |}.
  split; [exact Hset|]. split; [|done].
  rewrite bitset_set_valid; [|done|done]. simpl. f_equal. f_equal.
  rewrite list_insert_insert_eq. f_equal.
  unfold word at 1. simpl.
  destruct (Z.ltb_spec (index / bits_per_word) 0); [lia|].
  rewrite list_lookup_insert_eq by lia. simpl.
  rewrite <- Z.lor_assoc, Z.lor_diag. done.
Qed.

(** ** Setting many bits *)

(** Two calls of [bitset_set] commute, whatever the indices. *)
Lemma bitset_set_comm b x y :
  (let* b' := bitset_set b x in bitset_set b' y) =
  (let* b' := bitset_set b y in bitset_set b' x).
Proof.
  unfold bitset_set.
  set (jx := x / bits_per_word). set (jy := y / bits_per_word).
  set (mx := ulong (Z.shiftl 1 (x mod bits_per_word))).
  set (my := ulong (Z.shiftl 1 (y mod bits_per_word))).
  destruct (array_get (words b) jx) as [wx| |] eqn:Hx,
           (array_get (words b) jy) as [wy| |] eqn:Hy; simpl;
    try (by apply array_get_not_OutOfFuel in Hx);
    try (by apply array_get_not_OutOfFuel in Hy); try done.
  - destruct (Z.eq_dec jx jy) as [Heq | Hne].
    + rewrite <- Heq in *. assert (wy = wx) as -> by congruence.
      rewrite !(array_get_insert_eq _ _ wx) by done. simpl.
      rewrite !list_insert_insert_eq.
      rewrite <- !Z.lor_assoc, (Z.lor_comm mx my). done.
    + pose proof Hx as [Hx0 _]%array_get_Ret. pose proof Hy as [Hy0 _]%array_get_Ret.
      rewrite !array_get_insert_ne by done. rewrite Hx, Hy. simpl.
      rewrite list_insert_insert_ne by lia. done.
  - pose proof Hx as [Hx0 _]%array_get_Ret.
    assert (jx <> jy) as Hne by congruence.
    rewrite array_get_insert_ne by done. rewrite Hy. done.
  - pose proof Hy as [Hy0 _]%array_get_Ret.
    assert (jy <> jx) as Hne by congruence.
    rewrite array_get_insert_ne by done. rewrite Hx. done.
Qed.

Lemma set_all_Permutation indices indices' :
  Permutation indices indices' ->
  forall b, set_all b indices = set_all b indices'.
Proof.
  induction 1 as [| x l l' _ IH | x y l | l l' l'' _ IH1 _ IH2]; intros b; simpl.
  - done.
  - destruct (bitset_set b x); simpl; [apply IH | done | done].
  - pose proof (bitset_set_comm b y x) as Hc.
    destruct (bitset_set b y) as [by'| |], (bitset_set b x) as [bx'| |];
      simpl in *; try done.
    + destruct (bitset_set by' x), (bitset_set bx' y); simpl; congruence.
    + destruct (bitset_set by' x); simpl; congruence.
    + destruct (bitset_set by' x); simpl; congruence.
    + destruct (bitset_set bx' y); simpl; congruence.
    + destruct (bitset_set bx' y); simpl; congruence.
  - rewrite IH1. apply IH2.
Qed.

(** The loop of [bitset_fill] started at [i] performs the calls of
    [bitset_set] on the elements from [i] on, in order. *)
Lemma bitset_fill_loop_set_all fuel set indices num_indices i :
  num_indices = Z.of_nat (length indices) -> num_indices <= UINT_MAX ->
  Forall (fun x => 0 <= x <= UINT_MAX) indices ->
  0 <= i <= num_indices -> (Z.to_nat (num_indices - i) < fuel)%nat ->
  bitset_fill_loop fuel set indices num_indices i =
    set_all set (drop (Z.to_nat i) indices).
Proof.
  intros Hn Hmax Hall. revert set i.
  induction fuel as [|fuel IH]; intros set i Hi Hfuel; [lia|]. simpl.
  destruct (Z.ltb_spec i num_indices) as [Hlt | Hge].
  - destruct (array_get_in_bounds indices i) as [x Hx]; [lia|].
    rewrite Hx. simpl. apply array_get_Ret in Hx as [_ Hx].
    rewrite (drop_S _ _ _ Hx). simpl.
    rewrite uint_small by (eapply (Forall_lookup_1 _ _ _ _ Hall Hx)).
    destruct (bitset_set set x) as [set'| |]; simpl; try done.
    rewrite uint_small by lia. rewrite IH by lia.
    replace (Z.to_nat (i + 1)) with (S (Z.to_nat i)) by lia. done.
  - rewrite drop_ge by lia. done.
Qed.

Lemma bitset_fill_set_all set indices num_indices :
  num_indices = Z.of_nat (length indices) -> num_indices <= UINT_MAX ->
  Forall (fun x => 0 <= x <= UINT_MAX) indices ->
  bitset_fill set indices num_indices = set_all set indices.
Proof.
  intros Hn Hmax Hall. unfold bitset_fill.
  rewrite bitset_fill_loop_set_all; [done | done | done | done | lia | lia].
Qed.

Lemma valid_indices_range b indices :
  valid_indices b indices -> Forall (fun x => 0 <= x <= UINT_MAX) indices.
Proof.
  intros Hv. eapply Forall_impl; [exact Hv|]. intros x [[Hlo _] Hhi].
  unfold INT_MAX in Hhi. unfold UINT_MAX. lia.
Qed.

(** At valid indices the sequence of calls returns a well-formed bitset of
    the same word count, in which a bit is set exactly when it is one of
    the indices or was set before. *)
Lemma set_all_valid b indices :
  bitset_wf b -> Forall (valid_index b) indices ->
  exists b', set_all b indices = Ret b' /\ bitset_wf b' /\ size b' = size b /\
    forall i, bit_is_set b' i = existsb (Z.eqb i) indices || bit_is_set b i.
Proof using WORD_abi.
  intros Hwf Hall. revert b Hwf Hall.
  induction indices as [|x l IH]; intros b Hwf Hall; simpl.
  - exists b. done.
  - apply Forall_cons in Hall as [Hx Hl].
    destruct (bitset_set_returns b x Hwf Hx) as [b1 Hset].
    pose proof (bitset_set_wf _ _ _ Hwf Hx Hset) as Hwf1.
    pose proof (bitset_set_size _ _ _ Hset) as [Hsz1 _].
    destruct (IH b1) as (b' & Hb' & Hwf' & Hsz' & Hbits); [done | |].
    { eapply Forall_impl; [exact Hl|]. unfold valid_index. intros z Hz.
      by rewrite Hsz1. }
    rewrite Hset. simpl. exists b'. split_and!; [done | done | congruence |].
    intros i. rewrite Hbits.
    rewrite (bitset_set_bit b x b1 i Hwf Hx Hset).
    rewrite orb_assoc. f_equal. apply orb_comm.
Qed.

(** C5. On a sequence of valid indices, with [num_indices] its length,
    [bitset_fill] returns the bitset that the calls
    [bitset_set(b, i1); ...; bitset_set(b, in)] leave, and it returns the
    same bitset on every permutation of the sequence. *)
Theorem bitset_fill_sequential b indices indices' num_indices :
  bitset_wf b -> valid_indices b indices ->
  num_indices = Z.of_nat (length indices) -> num_indices <= UINT_MAX ->
  Permutation indices indices' ->
  exists b', bitset_fill b indices num_indices = Ret b' /\
    set_all b indices = Ret b' /\
    bitset_fill b indices' num_indices = Ret b'.
Proof using WORD_abi.
  intros Hwf Hv Hn Hmax Hperm.
  destruct (set_all_valid b indices Hwf) as (b' & Hb' & _).
  { eapply Forall_impl; [exact Hv|]. by intros x [? _]. }
  exists b'. split_and!.
  - rewrite bitset_fill_set_all; eauto using valid_indices_range.
  - done.
  - rewrite bitset_fill_set_all.
    + by rewrite <- (set_all_Permutation _ _ Hperm).
    + rewrite Hn. f_equal. by apply Permutation_length.
    + done.
    + rewrite <- Hperm. eauto using valid_indices_range.
Qed.

(** ** Sequences of calls *)

Lemma run_call_valid b c :
  bitset_wf b -> valid_call b c ->
  exists b', run_call b c = Ret b' /\ bitset_wf b' /\ size b' = size b /\
    forall i, bit_is_set b i = true -> bit_is_set b' i = true.
Proof using WORD_abi.
  intros Hwf Hv.
  destruct c as [index | indices num_indices | other | other]; simpl in *.
  - destruct (bitset_set_returns b index Hwf Hv) as [b' Hset].
    exists b'. split_and!.
    + done.
    + eapply bitset_set_wf; eauto.
    + by apply bitset_set_size in Hset as [? _].
    + intros i Hi.
      rewrite (bitset_set_bit _ _ _ i Hwf Hv Hset), Hi. apply orb_true_r.
  - destruct Hv as (Hv & Hn & Hmax).
    destruct (set_all_valid b indices Hwf) as (b' & Hb' & Hwf' & Hsz' & Hbits).
    { eapply Forall_impl; [exact Hv|]. by intros x [? _]. }
    exists b'. split_and!; [|done|done|].
    + rewrite bitset_fill_set_all; eauto using valid_indices_range.
    + intros i Hi. rewrite Hbits, Hi. apply orb_true_r.
  - destruct Hv as [Hwfo Hsz].
    destruct (is_disjoint_returns b other Hwf Hwfo Hsz) as [r ->].
    exists b. done.
  - destruct Hv as [Hwfo Hsz].
    destruct (is_disjoint_returns b other Hwf Hwfo Hsz) as [r Hr].
    unfold is_disjoint in Hr. rewrite is_disjoint_loop_not_disjoint_loop in Hr.
    unfold not_disjoint.
    destruct (not_disjoint_loop _ b other 0) as [r'| |]; try done.
    exists b. done.
Qed.

Lemma valid_call_size b b' c : size b' = size b -> valid_call b c -> valid_call b' c.
Proof.
  intros Hsz. destruct c as [index | indices num_indices | other | other]; simpl.
  - unfold valid_index. by rewrite Hsz.
  - intros (Hv & ? & ?). split; [|done].
    eapply Forall_impl; [exact Hv|]. unfold valid_index. intros x. by rewrite Hsz.
  - by rewrite Hsz.
  - by rewrite Hsz.
Qed.

(** C9. Setting bits is monotone: a sequence of calls of [bitset_set] and
    [bitset_fill] at valid indices, mixed with calls of [is_disjoint] and
    [not_disjoint], returns, and every bit that was set before the
    sequence is set after it. *)
Theorem run_calls_monotone b cs :
  bitset_wf b -> Forall (valid_call b) cs ->
  exists b', run_calls b cs = Ret b' /\
    forall i, bit_is_set b i = true -> bit_is_set b' i = true.
Proof using WORD_abi.
  revert b. induction cs as [|c cs IH]; intros b Hwf Hall; simpl.
  - exists b. done.
  - apply Forall_cons in Hall as [Hc Hcs].
    destruct (run_call_valid b c Hwf Hc) as (b1 & Hrun & Hwf1 & Hsz1 & Hmono1).
    rewrite Hrun. simpl.
    destruct (IH b1 Hwf1) as (b' & Hb' & Hmono).
    { eapply Forall_impl; [exact Hcs|]. intros c'. by apply valid_call_size. }
    exists b'. split; [done|]. intros i Hi. auto.
Qed.

(** ** Disjointness: the claims *)

(** C1. On well-formed bitsets with equal word counts [is_disjoint]
    returns, [not_disjoint] returns, and the first result is the negation
    of the second; with zero words the first is [true] and the second
    [false]. *)
Theorem is_disjoint_negb_not_disjoint a b :
  bitset_wf a -> bitset_wf b -> size a = size b ->
  (exists r, not_disjoint a b = Ret r /\ is_disjoint a b = Ret (negb r)) /\
  (size a = 0 -> is_disjoint a b = Ret true /\ not_disjoint a b = Ret false).
Proof.
  intros Ha Hb Hsz. split.
  - destruct (is_disjoint_loop_spec (S (Z.to_nat (size a))) a b 0)
      as (r & Hr & _); [done | done | done | destruct Ha; lia | lia |].
    unfold is_disjoint, not_disjoint in *.
    rewrite is_disjoint_loop_not_disjoint_loop in Hr |- *.
    destruct (not_disjoint_loop _ a b 0) as [r'| |]; try done.
    exists r'. done.
  - intros H0. unfold is_disjoint, not_disjoint. rewrite H0. simpl.
    rewrite H0. done.
Qed.

(** C3. On well-formed bitsets with equal word counts [is_disjoint]
    returns [true] exactly when no bit position is set in both, and
    exactly when the conjunction of the two words is zero at every word
    index from 0 to [size - 1]. *)
Theorem is_disjoint_correct a b :
  bitset_wf a -> bitset_wf b -> size a = size b ->
  exists r, is_disjoint a b = Ret r /\
    (r = true <-> forall i, ~ (bit_is_set a i = true /\ bit_is_set b i = true)) /\
    (r = true <->
     forall j, 0 <= j <= size a - 1 -> Z.land (word a j) (word b j) = 0).
Proof using WORD_abi.
  intros Ha Hb Hsz.
  destruct (is_disjoint_loop_spec (S (Z.to_nat (size a))) a b 0)
    as (r & Hr & Hiff); [done | done | done | destruct Ha; lia | lia |].
  exists r. split; [done|].
  assert (r = true <->
          forall j, 0 <= j <= size a - 1 -> Z.land (word a j) (word b j) = 0) as Hw.
  { rewrite Hiff. split; intros H j Hj; apply H; lia. }
  split; [|done].
  rewrite <- (words_disjoint_bits a b) by done. rewrite Hiff. done.
Qed.

(** C7. [is_disjoint] is symmetric on well-formed bitsets with equal word
    counts: both calls return, with the same result. *)
Theorem is_disjoint_symmetric a b :
  bitset_wf a -> bitset_wf b -> size a = size b ->
  exists r, is_disjoint a b = Ret r /\ is_disjoint b a = Ret r.
Proof.
  intros Ha Hb Hsz.
  destruct (is_disjoint_loop_spec (S (Z.to_nat (size a))) a b 0)
    as (r & Hr & _); [done | done | done | destruct Ha; lia | lia |].
  exists r. split; [done|].
  unfold is_disjoint in *. rewrite <- Hsz.
  rewrite <- is_disjoint_loop_sym; done.
Qed.

(** ** Creation *)

Lemma word_replicate_zero n sz i :
  word {| words := replicate n 0; size := sz |} i = 0.
Proof.
  unfold word. simpl. destruct (i <? 0); [done|].
  destruct (replicate n 0 !! Z.to_nat i) as [w|] eqn:Hw; [|done].
  apply lookup_replicate in Hw as [-> _]. done.
Qed.

Lemma bitset_create_wf num_bits b :
  0 <= num_bits <= UINT_MAX -> bitset_create num_bits = Ret b -> bitset_wf b.
Proof using WORD_abi size_t_abi.
  intros Hn. unfold bitset_create. rewrite word_count_exact by done. simpl.
  intros [= <-]. pose proof bits_per_word_pos as Hpos.
  pose proof (ceil_div_bounds num_bits bits_per_word Hpos) as Hc.
  split_and!; simpl.
  - rewrite length_replicate. nia.
  - nia.
  - apply Forall_replicate. unfold is_word. split; [done|].
    apply Z.pow_pos_nonneg; destruct WORD_abi; lia.
Qed.

(** C2. For every [num_bits] of type [unsigned], [bitset_create] returns a
    bitset whose word count is the ceiling of [num_bits / bits_per_word],
    whose words are all zero, and in which every bit of [0, num_bits)
    reads as unset. *)
Theorem bitset_create_correct num_bits :
  0 <= num_bits <= UINT_MAX ->
  exists b, bitset_create num_bits = Ret b /\
    size b = ceil_div num_bits bits_per_word /\
    bits_per_word * (size b - 1) < num_bits <= bits_per_word * size b /\
    words b = replicate (Z.to_nat (size b)) 0 /\
    forall i, 0 <= i < num_bits -> bit_is_set b i = false.
Proof using WORD_abi size_t_abi.
  intros Hn. unfold bitset_create. rewrite word_count_exact by done. simpl.
  eexists. split; [done|]. simpl. split_and!; [done | | | done |].
  - apply ceil_div_bounds, bits_per_word_pos.
  - apply ceil_div_bounds, bits_per_word_pos.
  - intros i _. unfold bit_is_set. rewrite word_replicate_zero. apply Z.bits_0.
Qed.

(** C8. [bitset_create(0)] returns the bitset with zero words, and
    [is_disjoint] on two bitsets that [bitset_create(0)] returned is
    [true]. *)
Theorem bitset_create_zero :
  bitset_create 0 = Ret {| words := []; size := 0 |} /\
  forall a b, bitset_create 0 = Ret a -> bitset_create 0 = Ret b ->
    is_disjoint a b = Ret true.
Proof using WORD_abi size_t_abi.
  assert (bitset_create 0 = Ret {| words := []; size := 0 |}) as H0.
  { unfold bitset_create. rewrite word_count_exact by (unfold UINT_MAX; lia).
    destruct bits_per_word_cases as [-> | ->]; reflexivity. }
  split; [done|]. intros a b. rewrite H0. intros [= <-] [= <-]. reflexivity.
Qed.

(** C10. For every [num_bits] of type [unsigned] the word count computed
    in double arithmetic, [ceil((double)num_bits / bits_per_word)]
    converted to [size_t], is the integer ceiling
    [(num_bits + bits_per_word - 1) / bits_per_word]; the conversion of
    [num_bits] and the quotient are exact; at [num_bits = 0] the result
    is 0. *)
Theorem double_ceil_exact num_bits :
  0 <= num_bits <= UINT_MAX ->
  size_t_of_double
    (ceil (double_div (double_of_Z num_bits) (double_of_Z bits_per_word))) =
    Ret ((num_bits + bits_per_word - 1) / bits_per_word) /\
  double_exact (double_of_Z num_bits) num_bits 1 /\
  double_exact (double_div (double_of_Z num_bits) (double_of_Z bits_per_word))
    num_bits bits_per_word /\
  size_t_of_double
    (ceil (double_div (double_of_Z 0) (double_of_Z bits_per_word))) = Ret 0.
Proof using WORD_abi size_t_abi.
  intros Hn. split_and!.
  - by rewrite word_count_exact.
  - destruct (Z.eq_dec num_bits 0) as [-> | Hne]; [done|].
    destruct (double_of_Z_short num_bits) as (m & d & -> & Hd & Hm & _).
    { unfold UINT_MAX in Hn. lia. }
    unfold double_exact. destruct (Z.leb_spec 0 (d - 53)); [lia|].
    simpl cond_Zopp. rewrite Hm.
    replace (- (d - 53)) with (53 - d) by lia. lia.
  - destruct (Z.eq_dec num_bits 0) as [-> | Hne].
    + destruct double_of_Z_bits_per_word as (my & k & -> & _). done.
    + destruct (double_div_bits_per_word num_bits) as (m & e & -> & He & Hm); [lia|].
      unfold double_exact. destruct (Z.leb_spec 0 e); [lia|]. done.
  - rewrite word_count_exact by (unfold UINT_MAX; lia).
    destruct bits_per_word_cases as [-> | ->]; reflexivity.
Qed.

(** * Further properties of the five functions *)

(** ** Comparisons of bitsets of different word counts *)

(** The loop of [is_disjoint] runs over the words of [a]: when [b] has at
    least as many words, each iteration reads inside both arrays. *)
Lemma is_disjoint_loop_prefix fuel a b i :
  bitset_wf a -> bitset_wf b -> size a <= size b ->
  0 <= i <= size a -> (Z.to_nat (size a - i) < fuel)%nat ->
  exists r, is_disjoint_loop fuel a b i = Ret r /\
    (r = true <-> forall j, i <= j < size a -> Z.land (word a j) (word b j) = 0) /\
    (r = false <-> exists j, i <= j < size a /\ Z.land (word a j) (word b j) <> 0).
Proof.
  intros Ha Hb Hsz. revert i.
  induction fuel as [|fuel IH]; intros i Hi Hfuel; [lia|]. simpl.
  destruct (Z.ltb_spec i (size a)) as [Hlt | Hge].
  - destruct (array_get_in_bounds (words a) i) as [wa Hwa]; [destruct Ha; lia|].
    destruct (array_get_in_bounds (words b) i) as [wb Hwb]; [destruct Hb; lia|].
    rewrite Hwa, Hwb. simpl. apply array_get_word in Hwa, Hwb.
    destruct (Z.eqb_spec (Z.land wa wb) 0) as [Hz | Hnz]; simpl.
    + rewrite uint_small by (destruct Ha as (_ & ? & _); lia).
      destruct (IH (i + 1)) as (r & Hr & Ht & Hf); [lia | lia |].
      exists r. split; [done|]. rewrite Ht, Hf. split; split.
      * intros H j Hj. destruct (Z.eq_dec j i) as [-> | Hne];
          [by rewrite Hwa, Hwb | apply H; lia].
      * intros H j Hj. apply H. lia.
      * intros (j & Hj & Hne). exists j. split; [lia | done].
      * intros (j & Hj & Hne). exists j. split; [|done].
        destruct (Z.eq_dec j i) as [-> | ?]; [|lia].
        rewrite Hwa, Hwb in Hne. done.
    + exists false. split; [done|]. split; split.
      * done.
      * intros H. exfalso. apply Hnz. rewrite <- Hwa, <- Hwb. apply H. lia.
      * intros _. exists i. split; [lia|]. by rewrite Hwa, Hwb.
      * done.
  - exists true. split; [done|]. split; split.
    + intros _ j Hj. lia.
    + done.
    + done.
    + intros (j & Hj & _). lia.
Qed.


(** X1. When [b] has at least as many words as [a], [is_disjoint(a, b)]
    returns, and it compares the first [a->size] words only: the result is
    [true] exactly when these have a zero conjunction pairwise, whatever the
    other words of [b] hold. *)
Theorem is_disjoint_longer_right a b :
  bitset_wf a -> bitset_wf b -> size a <= size b ->
  exists r, is_disjoint a b = Ret r /\
    (r = true <-> forall j, 0 <= j < size a -> Z.land (word a j) (word b j) = 0).
Proof.
  intros Ha Hb Hsz.
  destruct (is_disjoint_loop_prefix (S (Z.to_nat (size a))) a b 0)
    as (r & Hr & Ht & _); [done | done | done | destruct Ha; lia | lia |].
  by exists r.
Qed.


(** ** The counter of the comparison loops *)



(** ** Disjointness in terms of bits *)

Lemma is_disjoint_bits a b :
  bitset_wf a -> bitset_wf b -> size a = size b ->
  exists r, is_disjoint a b = Ret r /\
    (r = true <-> forall i, ~ (bit_is_set a i = true /\ bit_is_set b i = true)).
Proof using WORD_abi.
  intros Ha Hb Hsz.
  destruct (is_disjoint_loop_spec (S (Z.to_nat (size a))) a b 0)
    as (r & Hr & Hiff); [done | done | done | destruct Ha; lia | lia |].
  exists r. split; [done|].
  rewrite <- (words_disjoint_bits a b) by done. done.
Qed.

(** X4. On well-formed bitsets with equal word counts [not_disjoint]
    returns [true] exactly when some bit position inside the capacity is
    set in both. *)
Theorem not_disjoint_common_bit a b :
  bitset_wf a -> bitset_wf b -> size a = size b ->
  exists r, not_disjoint a b = Ret r /\
    (r = true <->
     exists i, 0 <= i < size a * bits_per_word /\
       bit_is_set a i = true /\ bit_is_set b i = true).
Proof using WORD_abi.
  intros Ha Hb Hsz. pose proof bits_per_word_pos as Hpos.
  destruct (is_disjoint_loop_prefix (S (Z.to_nat (size a))) a b 0)
    as (r & Hr & _ & Hf); [done | done | lia | destruct Ha; lia | lia |].
  rewrite is_disjoint_loop_not_disjoint_loop in Hr. unfold not_disjoint.
  destruct (not_disjoint_loop _ a b 0) as [r'| |]; try done.
  injection Hr as <-. exists r'. split; [done|].
  rewrite <- negb_false_iff, Hf. split.
  - intros (j & Hj & Hne).
    pose proof (word_is_word a j Ha) as Hwa. pose proof (word_is_word b j Hb) as Hwb.
    assert (0 < Z.land (word a j) (word b j)) as Hlt.
    { assert (0 <= Z.land (word a j) (word b j)); [|lia].
      apply Z.land_nonneg. unfold is_word in Hwa. lia. }
    pose proof (Z.bit_log2 _ Hlt) as Hbit.
    set (k := Z.log2 (Z.land (word a j) (word b j))) in *.
    assert (0 <= k) as Hk0 by apply Z.log2_nonneg.
    rewrite Z.land_spec in Hbit. apply andb_true_iff in Hbit as [Hba Hbb].
    assert (k < bits_per_word) as Hk.
    { destruct (Z.lt_ge_cases k bits_per_word) as [|Hge]; [done|].
      rewrite (testbit_word_high (word a j) k) in Hba; done. }
    exists (j * bits_per_word + k). unfold bit_is_set.
    replace ((j * bits_per_word + k) / bits_per_word) with j
      by (apply Z.div_unique with k; lia).
    replace ((j * bits_per_word + k) mod bits_per_word) with k
      by (apply Z.mod_unique with j; lia).
    split; [nia | done].
  - intros (i & Hi & Hia & Hib). unfold bit_is_set in *.
    pose proof (index_split i) as [Hsplit Hk].
    exists (i / bits_per_word). split.
    + split; [apply Z.div_pos; lia | apply Z.div_lt_upper_bound; lia].
    + intros Hz.
      assert (Z.testbit (Z.land (word a (i / bits_per_word))
                                (word b (i / bits_per_word)))
                (i mod bits_per_word) = true) as Hbit.
      { rewrite Z.land_spec, Hia, Hib. done. }
      rewrite Hz, Z.bits_0 in Hbit. done.
Qed.

(** X5. A well-formed bitset is disjoint from itself exactly when none of
    its bits is set. *)
Theorem is_disjoint_self a :
  bitset_wf a ->
  exists r, is_disjoint a a = Ret r /\
    (r = true <-> forall i, bit_is_set a i = false).
Proof using WORD_abi.
  intros Ha. destruct (is_disjoint_bits a a) as (r & Hr & Hiff); [done | done | done |].
  exists r. split; [done|]. rewrite Hiff. split.
  - intros H i. specialize (H i). destruct (bit_is_set a i); [|done].
    exfalso. by apply H.
  - intros H i [Hi _]. by rewrite H in Hi.
Qed.

(** X6. A bitset that [bitset_create] returned is disjoint from every
    well-formed bitset of the same word count, in both argument orders. *)
Theorem is_disjoint_bitset_create num_bits e b :
  0 <= num_bits <= UINT_MAX -> bitset_create num_bits = Ret e ->
  bitset_wf b -> size b = size e ->
  is_disjoint e b = Ret true /\ is_disjoint b e = Ret true.
Proof using WORD_abi size_t_abi.
  intros Hn He Hb Hsz.
  pose proof (bitset_create_wf num_bits e Hn He) as Hwf.
  assert (forall j, word e j = 0) as Hzero.
  { unfold bitset_create in He. rewrite word_count_exact in He by done.
    simpl in He. injection He as <-. intros j. apply word_replicate_zero. }
  assert (is_disjoint e b = Ret true) as H1.
  { destruct (is_disjoint_loop_spec (S (Z.to_nat (size e))) e b 0)
      as (r & Hr & Hiff); [done | done | done | destruct Hwf; lia | lia |].
    unfold is_disjoint. rewrite Hr. f_equal. apply Hiff.
    intros j _. rewrite Hzero. apply Z.land_0_l. }
  split; [done|].
  unfold is_disjoint in *. rewrite Hsz, is_disjoint_loop_sym by done. done.
Qed.


(** ** Indices outside of the capacity *)

Lemma bitset_set_invalid b index :
  bitset_wf b -> 0 <= index -> ~ valid_index b index ->
  bitset_set b index = Undefined.
Proof using WORD_abi.
  intros (Hlen & _) Hlo Hnv. pose proof bits_per_word_pos as Hpos.
  assert (size b <= index / bits_per_word) as Hge.
  { apply Z.div_le_lower_bound; [done|]. unfold valid_index in Hnv. lia. }
  unfold bitset_set, array_get.
  destruct (Z.ltb_spec (index / bits_per_word) 0); [done|].
  rewrite lookup_ge_None_2 by lia. done.
Qed.

(** X8. On a well-formed bitset [bitset_set] has undefined behaviour (it
    writes outside of the array) exactly at the indices that are not below
    [size * bits_per_word]. *)
Theorem bitset_set_undefined_iff b index :
  bitset_wf b -> 0 <= index ->
  (bitset_set b index = Undefined <-> size b * bits_per_word <= index).
Proof using WORD_abi.
  intros Hwf Hlo. split.
  - intros Hu. destruct (Z.le_gt_cases (size b * bits_per_word) index); [done|].
    destruct (bitset_set_returns b index Hwf) as [b' Hb']; [unfold valid_index; lia|].
    congruence.
  - intros Hge. apply bitset_set_invalid; [done | done |]. unfold valid_index. lia.
Qed.

Lemma bitset_set_not_OutOfFuel b index : bitset_set b index <> OutOfFuel.
Proof.
  unfold bitset_set.
  destruct (array_get (words b) (index / bits_per_word)) as [w| |] eqn:Hw; simpl;
    [done | done |].
  by apply array_get_not_OutOfFuel in Hw.
Qed.

Lemma uint_range x : 0 <= uint x <= UINT_MAX.
Proof.
  unfold uint. pose proof (Z.mod_pos_bound x (UINT_MAX + 1)).
  unfold UINT_MAX in *. lia.
Qed.

(** ** [bitset_fill] on any array *)

(** The loop started at [i] calls [bitset_set] on the elements [i] to
    [num_indices - 1], each converted to [unsigned]. *)
Lemma bitset_fill_loop_take fuel set indices num_indices i :
  num_indices <= Z.of_nat (length indices) -> num_indices <= UINT_MAX ->
  0 <= i <= num_indices -> (Z.to_nat (num_indices - i) < fuel)%nat ->
  bitset_fill_loop fuel set indices num_indices i =
    set_all set (map uint (drop (Z.to_nat i) (take (Z.to_nat num_indices) indices))).
Proof.
  intros Hn Hmax. revert set i.
  induction fuel as [|fuel IH]; intros set i Hi Hfuel; [lia|]. simpl.
  destruct (Z.ltb_spec i num_indices) as [Hlt | Hge].
  - destruct (array_get_in_bounds indices i) as [x Hx]; [lia|].
    rewrite Hx. simpl. apply array_get_Ret in Hx as [_ Hx].
    rewrite <- (lookup_take_lt _ (Z.to_nat num_indices)) in Hx by lia.
    rewrite (drop_S _ _ _ Hx). simpl.
    destruct (bitset_set set (uint x)) as [set'| |]; simpl; try done.
    rewrite uint_small by lia. rewrite IH by lia.
    replace (Z.to_nat (i + 1)) with (S (Z.to_nat i)) by lia. done.
  - rewrite drop_ge by (rewrite length_take; lia). done.
Qed.

Lemma bitset_fill_map_uint set indices num_indices :
  num_indices = Z.of_nat (length indices) -> num_indices <= UINT_MAX ->
  bitset_fill set indices num_indices = set_all set (map uint indices).
Proof.
  intros Hn Hmax. unfold bitset_fill.
  rewrite bitset_fill_loop_take by lia. simpl.
  rewrite take_ge by lia. done.
Qed.

(** X9. With [num_indices] at most the length of the array, [bitset_fill]
    uses the first [num_indices] elements and no other: it is the sequence
    of calls of [bitset_set] on these, each converted from [int] to
    [unsigned]. *)
Theorem bitset_fill_prefix set indices num_indices :
  0 <= num_indices <= Z.of_nat (length indices) -> num_indices <= UINT_MAX ->
  bitset_fill set indices num_indices =
    set_all set (map uint (take (Z.to_nat num_indices) indices)).
Proof.
  intros Hn Hmax. unfold bitset_fill.
  rewrite bitset_fill_loop_take by lia. done.
Qed.

Lemma bitset_fill_loop_overrun fuel set indices num_indices i :
  Z.of_nat (length indices) < num_indices -> num_indices <= UINT_MAX ->
  0 <= i <= Z.of_nat (length indices) ->
  (Z.to_nat (Z.of_nat (length indices) - i) < fuel)%nat ->
  bitset_fill_loop fuel set indices num_indices i = Undefined.
Proof.
  intros Hn Hmax. revert set i.
  induction fuel as [|fuel IH]; intros set i Hi Hfuel; [lia|]. simpl.
  destruct (Z.ltb_spec i num_indices) as [Hlt | Hge]; [|lia].
  destruct (Z.lt_ge_cases i (Z.of_nat (length indices))) as [Hin | Hout].
  - destruct (array_get_in_bounds indices i) as [x Hx]; [lia|].
    rewrite Hx. simpl.
    destruct (bitset_set set (uint x)) as [set'| |] eqn:Hset; simpl; [|done|].
    + rewrite uint_small by lia. apply IH; lia.
    + by apply bitset_set_not_OutOfFuel in Hset.
  - unfold array_get. destruct (Z.ltb_spec i 0); [done|].
    rewrite lookup_ge_None_2 by lia. done.
Qed.

(** X10. With [num_indices] above the length of the array, [bitset_fill]
    has undefined behaviour on every bitset: if no call of [bitset_set]
    fails first, the loop reads [indices] past its end. *)
Theorem bitset_fill_overrun set indices num_indices :
  Z.of_nat (length indices) < num_indices -> num_indices <= UINT_MAX ->
  bitset_fill set indices num_indices = Undefined.
Proof.
  intros Hn Hmax. unfold bitset_fill.
  apply bitset_fill_loop_overrun; [done | done | lia | lia].
Qed.

Lemma set_all_invalid b indices :
  bitset_wf b -> Forall (fun x => 0 <= x) indices ->
  Exists (fun x => ~ valid_index b x) indices ->
  set_all b indices = Undefined.
Proof using WORD_abi.
  intros Hwf Hnn Hex. revert b Hwf Hex.
  induction indices as [|x l IH]; intros b Hwf Hex; [by apply Exists_nil in Hex|].
  apply Forall_cons in Hnn as [Hx Hl]. simpl.
  destruct (decide (valid_index b x)) as [Hv | Hnv].
  - destruct (bitset_set_returns b x Hwf Hv) as [b1 Hset]. rewrite Hset. simpl.
    pose proof (bitset_set_size _ _ _ Hset) as [Hsz _].
    apply IH; [done | by eapply bitset_set_wf |].
    apply Exists_cons in Hex as [Hex | Hex]; [done|].
    eapply Exists_impl; [exact Hex|]. unfold valid_index. intros y. by rewrite Hsz.
  - rewrite bitset_set_invalid; done.
Qed.

(** X11. One element that is not a valid index after its conversion to
    [unsigned] (a negative [int], or one beyond the capacity) makes the whole
    call of [bitset_fill] undefined, wherever it stands in the array. *)
Theorem bitset_fill_invalid_index b indices num_indices :
  bitset_wf b ->
  num_indices = Z.of_nat (length indices) -> num_indices <= UINT_MAX ->
  Exists (fun x => ~ valid_index b (uint x)) indices ->
  bitset_fill b indices num_indices = Undefined.
Proof using WORD_abi.
  intros Hwf Hn Hmax Hex. rewrite bitset_fill_map_uint by done.
  apply set_all_invalid; [done | |].
  - apply Forall_forall. intros y Hy. apply list_elem_of_In, in_map_iff in Hy.
    destruct Hy as (x & <- & _). apply uint_range.
  - apply Exists_exists in Hex as (x & Hx & Hnv).
    apply Exists_exists. exists (uint x). split; [|done].
    apply list_elem_of_In, in_map. by apply list_elem_of_In.
Qed.

(** ** What [bitset_fill] leaves *)

(** X12. After [bitset_fill] on valid indices a bit is set exactly when its
    position is one of the indices or it was set before: the call adds the
    indices to the set. The word count is kept. *)
Theorem bitset_fill_union b indices num_indices :
  bitset_wf b -> valid_indices b indices ->
  num_indices = Z.of_nat (length indices) -> num_indices <= UINT_MAX ->
  exists b', bitset_fill b indices num_indices = Ret b' /\
    size b' = size b /\
    forall i, bit_is_set b' i = existsb (Z.eqb i) indices || bit_is_set b i.
Proof using WORD_abi.
  intros Hwf Hv Hn Hmax.
  destruct (set_all_valid b indices Hwf) as (b' & Hb' & _ & Hsz & Hbits).
  { eapply Forall_impl; [exact Hv|]. by intros x [? _]. }
  exists b'. split; [|done].
  rewrite bitset_fill_set_all; eauto using valid_indices_range.
Qed.

Lemma set_all_app b l1 l2 :
  set_all b (l1 ++ l2) = let* b1 := set_all b l1 in set_all b1 l2.
Proof.
  revert b. induction l1 as [|x l1 IH]; intros b; simpl; [done|].
  destruct (bitset_set b x) as [b'| |]; simpl; [apply IH | done | done].
Qed.

(** X13. One call of [bitset_fill] on the concatenation of two arrays is
    the call on the first followed by the call on the second, including
    the cases in which one of them has undefined behaviour. *)
Theorem bitset_fill_app b l1 l2 n1 n2 :
  n1 = Z.of_nat (length l1) -> n2 = Z.of_nat (length l2) ->
  n1 + n2 <= UINT_MAX ->
  bitset_fill b (l1 ++ l2) (n1 + n2) =
    let* b1 := bitset_fill b l1 n1 in bitset_fill b1 l2 n2.
Proof.
  intros Hn1 Hn2 Hmax.
  rewrite (bitset_fill_map_uint b (l1 ++ l2)) by (rewrite ?length_app; lia).
  rewrite (bitset_fill_map_uint b l1) by lia.
  rewrite map_app, set_all_app.
  destruct (set_all b (map uint l1)) as [b1| |]; simpl; [|done|done].
  rewrite bitset_fill_map_uint by lia. done.
Qed.

(** Two well-formed bitsets of the same word count in which the same bits
    are set are the same bitset. *)
Lemma bitset_ext a b :
  bitset_wf a -> bitset_wf b -> size a = size b ->
  (forall i, bit_is_set a i = bit_is_set b i) -> a = b.
Proof using WORD_abi.
  intros (Hla & _ & Hwa) (Hlb & _ & Hwb) Hsz Hbits.
  pose proof bits_per_word_pos as Hpos.
  destruct a as [wa sa], b as [wb sb]. simpl in *. subst sb. f_equal; [|done].
  apply list_eq. intros k.
  destruct (wa !! k) as [x|] eqn:Hx, (wb !! k) as [y|] eqn:Hy.
  - f_equal. apply Z.bits_inj'. intros t Ht.
    destruct (Z.lt_ge_cases t bits_per_word) as [Hlt | Hge].
    + specialize (Hbits (Z.of_nat k * bits_per_word + t)).
      unfold bit_is_set, word in Hbits. simpl in Hbits.
      replace ((Z.of_nat k * bits_per_word + t) / bits_per_word) with (Z.of_nat k)
        in Hbits by (apply Z.div_unique with t; lia).
      replace ((Z.of_nat k * bits_per_word + t) mod bits_per_word) with t
        in Hbits by (apply Z.mod_unique with (Z.of_nat k); lia).
      destruct (Z.ltb_spec (Z.of_nat k) 0); [lia|].
      rewrite Nat2Z.id, Hx, Hy in Hbits. done.
    + assert (is_word x) as Hwx by exact (Forall_lookup_1 _ _ _ _ Hwa Hx).
      assert (is_word y) as Hwy by exact (Forall_lookup_1 _ _ _ _ Hwb Hy).
      rewrite (testbit_word_high x t) by done.
      rewrite (testbit_word_high y t) by done. done.
  - apply lookup_lt_Some in Hx. apply lookup_ge_None in Hy. lia.
  - apply lookup_lt_Some in Hy. apply lookup_ge_None in Hx. lia.
  - done.
Qed.

(** X14. [bitset_fill] is idempotent: on valid indices a second call with
    the same array returns the bitset the first call left. *)
Theorem bitset_fill_idempotent b indices num_indices :
  bitset_wf b -> valid_indices b indices ->
  num_indices = Z.of_nat (length indices) -> num_indices <= UINT_MAX ->
  exists b', bitset_fill b indices num_indices = Ret b' /\
    bitset_fill b' indices num_indices = Ret b'.
Proof using WORD_abi.
  intros Hwf Hv Hn Hmax.
  assert (Forall (valid_index b) indices) as Hv'.
  { eapply Forall_impl; [exact Hv|]. by intros x [? _]. }
  destruct (set_all_valid b indices Hwf Hv') as (b' & Hb' & Hwf' & Hsz & Hbits).
  assert (Forall (valid_index b') indices) as Hv''.
  { eapply Forall_impl; [exact Hv'|]. unfold valid_index. intros x. by rewrite Hsz. }
  destruct (set_all_valid b' indices Hwf' Hv'') as (b'' & Hb'' & Hwf'' & Hsz' & Hbits').
  pose proof (valid_indices_range b indices Hv) as Hrange.
  exists b'. rewrite (bitset_fill_set_all b), (bitset_fill_set_all b') by done.
  split; [done|]. rewrite Hb''. f_equal.
  apply bitset_ext; [done | done | done |].
  intros i. rewrite Hbits', Hbits.
  destruct (existsb (Z.eqb i) indices); done.
Qed.

(** ** The invariant of the interface *)

(** X15. Well-formedness is an invariant: whatever sequence of valid calls
    is run on a well-formed bitset, the bitset it leaves is well-formed
    (the size field is the length of the array and every element is a
    [WORD]) and has the same word count. *)
Theorem run_calls_invariant b cs :
  bitset_wf b -> Forall (valid_call b) cs ->
  exists b', run_calls b cs = Ret b' /\ bitset_wf b' /\ size b' = size b.
Proof using WORD_abi.
  revert b. induction cs as [|c cs IH]; intros b Hwf Hall; simpl.
  - exists b. done.
  - apply Forall_cons in Hall as [Hc Hcs].
    destruct (run_call_valid b c Hwf Hc) as (b1 & Hrun & Hwf1 & Hsz1 & _).
    rewrite Hrun. simpl.
    destruct (IH b1 Hwf1) as (b' & Hb' & Hwf' & Hsz').
    { eapply Forall_impl; [exact Hcs|]. intros c'. by apply valid_call_size. }
    exists b'. split_and!; [done | done | lia].
Qed.

(** ** Creation followed by the other calls *)

Lemma bitset_create_Ret num_bits b :
  0 <= num_bits <= UINT_MAX -> bitset_create num_bits = Ret b ->
  size b = ceil_div num_bits bits_per_word /\ forall i, bit_is_set b i = false.
Proof using WORD_abi size_t_abi.
  intros Hn. unfold bitset_create. rewrite word_count_exact by done. simpl.
  intros [= <-]. split; [done|]. intros i. unfold bit_is_set.
  rewrite word_replicate_zero. apply Z.bits_0.
Qed.

(** X16. The bitset that [bitset_create(num_bits)] returns is well-formed;
    its capacity [size * bits_per_word] is at least [num_bits], less than
    [num_bits + bits_per_word] and at most [UINT_MAX + 1], so that every
    valid index is a value of [unsigned]. *)
Theorem bitset_create_capacity num_bits b :
  0 <= num_bits <= UINT_MAX -> bitset_create num_bits = Ret b ->
  bitset_wf b /\
  num_bits <= size b * bits_per_word < num_bits + bits_per_word /\
  size b * bits_per_word <= UINT_MAX + 1 /\
  forall index, valid_index b index -> index <= UINT_MAX.
Proof using WORD_abi size_t_abi.
  intros Hn Hb. pose proof bits_per_word_pos as Hpos.
  pose proof (bitset_create_wf _ _ Hn Hb) as Hwf.
  pose proof (bitset_create_Ret _ _ Hn Hb) as [Hsz _].
  pose proof (ceil_div_bounds num_bits bits_per_word Hpos) as Hc.
  rewrite <- Hsz in Hc.
  assert (size b * bits_per_word <= UINT_MAX + 1) as Hcap.
  { unfold UINT_MAX in *. destruct bits_per_word_cases as [Hw | Hw];
      rewrite Hw in *; lia. }
  split_and!; [done | lia | lia | done |].
  intros index [_ Hhi]. lia.
Qed.

(** X17. Every position below [num_bits] can be set in the bitset that
    [bitset_create(num_bits)] returned, and after the call exactly that bit
    is set. *)
Theorem bitset_create_set num_bits b index :
  0 <= num_bits <= UINT_MAX -> bitset_create num_bits = Ret b ->
  0 <= index < num_bits ->
  exists b', bitset_set b index = Ret b' /\
    forall i, bit_is_set b' i = (i =? index).
Proof using WORD_abi size_t_abi.
  intros Hn Hb Hi. pose proof bits_per_word_pos as Hpos.
  pose proof (bitset_create_wf _ _ Hn Hb) as Hwf.
  pose proof (bitset_create_Ret _ _ Hn Hb) as [Hsz Hzero].
  pose proof (ceil_div_bounds num_bits bits_per_word Hpos) as Hc.
  rewrite <- Hsz in Hc.
  assert (valid_index b index) as Hv by (unfold valid_index; lia).
  destruct (bitset_set_returns b index Hwf Hv) as [b' Hset].
  exists b'. split; [done|]. intros i.
  rewrite (bitset_set_bit _ _ _ i Hwf Hv Hset), Hzero. apply orb_false_r.
Qed.

(** X18. Two bitsets are created for [num_bits] bits and filled from two
    arrays of positions below [num_bits]: [is_disjoint] returns [true]
    exactly when no element of the first array is an element of the
    second. *)
Theorem is_disjoint_of_fills num_bits e l1 l2 n1 n2 :
  0 <= num_bits <= UINT_MAX -> bitset_create num_bits = Ret e ->
  Forall (fun x => 0 <= x < num_bits /\ x <= INT_MAX) l1 ->
  Forall (fun x => 0 <= x < num_bits /\ x <= INT_MAX) l2 ->
  n1 = Z.of_nat (length l1) -> n1 <= UINT_MAX ->
  n2 = Z.of_nat (length l2) -> n2 <= UINT_MAX ->
  exists a b, bitset_fill e l1 n1 = Ret a /\ bitset_fill e l2 n2 = Ret b /\
    is_disjoint a b =
      Ret (forallb (fun x => negb (existsb (Z.eqb x) l2)) l1).
Proof using WORD_abi size_t_abi.
  intros Hn He Hl1 Hl2 Hn1 Hm1 Hn2 Hm2. pose proof bits_per_word_pos as Hpos.
  pose proof (bitset_create_wf _ _ Hn He) as Hwf.
  pose proof (bitset_create_Ret _ _ Hn He) as [Hsz Hzero].
  pose proof (ceil_div_bounds num_bits bits_per_word Hpos) as Hc.
  rewrite <- Hsz in Hc.
  assert (forall l, Forall (fun x => 0 <= x < num_bits /\ x <= INT_MAX) l ->
                    Forall (valid_index e) l /\
                    Forall (fun x => 0 <= x <= UINT_MAX) l) as Hvalid.
  { intros l Hl. split; (eapply Forall_impl; [exact Hl|]); intros x [Hx Hx'].
    - unfold valid_index. lia.
    - unfold INT_MAX in Hx'. unfold UINT_MAX. lia. }
  destruct (Hvalid l1 Hl1) as [Hv1 Hr1]. destruct (Hvalid l2 Hl2) as [Hv2 Hr2].
  destruct (set_all_valid e l1 Hwf Hv1) as (a & Ha & Hwfa & Hsza & Hbitsa).
  destruct (set_all_valid e l2 Hwf Hv2) as (b & Hb & Hwfb & Hszb & Hbitsb).
  exists a, b. rewrite !bitset_fill_set_all by done.
  split; [done|]. split; [done|].
  destruct (is_disjoint_bits a b) as (r & Hr & Hiff); [done | done | lia |].
  rewrite Hr. f_equal.
  assert (r = true <->
          forallb (fun x => negb (existsb (Z.eqb x) l2)) l1 = true) as Heq.
  { rewrite Hiff, forallb_forall. split.
    - intros H x Hx. destruct (existsb (Z.eqb x) l2) eqn:Hex; [|done].
      exfalso. apply (H x). rewrite Hbitsa, Hbitsb, Hex. split; [|done].
      apply orb_true_iff. left. apply existsb_exists. exists x.
      split; [done | apply Z.eqb_refl].
    - intros H i [Hia Hib]. rewrite Hbitsa, Hzero, orb_false_r in Hia.
      rewrite Hbitsb, Hzero, orb_false_r in Hib.
      apply existsb_exists in Hia as (x & Hx & Hix). apply Z.eqb_eq in Hix. subst x.
      specialize (H i Hx). rewrite Hib in H. done. }
  destruct r, (forallb (fun x => negb (existsb (Z.eqb x) l2)) l1); try done.
  - symmetry. by apply Heq.
  - by apply Heq.
Qed.

End ABI.

(** * The scenarios of the specification, run on the model *)

(** Scenario 1 (LP64): two bitsets of 100 bits filled with [1..9] and with
    [10, 11, 12] are disjoint. *)
Example scenario_disjoint :
  (let* a := bitset_create 8 (2 ^ 64 - 1) 100 in
   let* a := bitset_fill 8 a [1; 2; 3; 4; 5; 6; 7; 8; 9] 9 in
   let* b := bitset_create 8 (2 ^ 64 - 1) 100 in
   let* b := bitset_fill 8 b [10; 11; 12] 3 in
   let* d := is_disjoint a b in
   let* n := not_disjoint a b in
   Ret (words a, words b, d, n)) = Ret ([1022; 0], [7168; 0], true, false).
Proof. vm_compute. reflexivity. Qed.

(** Scenario 2 (LP64): filled with [1..9] and with [9, 10, 11] they meet at
    bit 9. *)
Example scenario_overlap :
  (let* a := bitset_create 8 (2 ^ 64 - 1) 100 in
   let* a := bitset_fill 8 a [1; 2; 3; 4; 5; 6; 7; 8; 9] 9 in
   let* b := bitset_create 8 (2 ^ 64 - 1) 100 in
   let* b := bitset_fill 8 b [9; 10; 11] 3 in
   let* d := is_disjoint a b in
   let* n := not_disjoint a b in
   Ret (words a, words b, d, n)) = Ret ([1022; 0], [3584; 0], false, true).
Proof. vm_compute. reflexivity. Qed.

(** Scenario 4 (LP64): 64 bits take one word, and bit 63 is its last bit. *)
Example scenario_last_bit :
  (let* b := bitset_create 8 (2 ^ 64 - 1) 64 in bitset_set 8 b 63) =
    Ret {| words := [2 ^ 63]; size := 1 |}.
Proof. vm_compute. reflexivity. Qed.

(** The same 100 bits take four words where [WORD] has 32 bits. *)
Example scenario_disjoint_32 :
  (let* a := bitset_create 4 (2 ^ 32 - 1) 100 in
   let* a := bitset_fill 4 a [1; 2; 3; 40] 4 in
   let* b := bitset_create 4 (2 ^ 32 - 1) 100 in
   let* b := bitset_fill 4 b [10; 11; 12] 3 in
   let* d := is_disjoint a b in
   Ret (words a, words b, d)) = Ret ([14; 256; 0; 0], [7168; 0; 0; 0], true).
Proof. vm_compute. reflexivity. Qed.

(** Outside of the preconditions the C program has undefined behaviour: an
    index beyond the capacity, a negative [int] index, bitsets of different
    word counts. *)
Example bitset_set_out_of_range :
  bitset_set 8 {| words := [0]; size := 1 |} 64 = Undefined.
Proof. reflexivity. Qed.

Example bitset_fill_negative_index :
  bitset_fill 8 {| words := [0]; size := 1 |} [-1] 1 = Undefined.
Proof. reflexivity. Qed.

Example is_disjoint_size_mismatch :
  is_disjoint {| words := [1; 0]; size := 2 |} {| words := [2]; size := 1 |} =
    Undefined.
Proof. reflexivity. Qed.

(** * Instances

    The theorems at [sizeof(WORD) = 8] and a 64-bit [size_t] (LP64), on
    the bitsets of the scenarios of the specification. *)

Lemma is_disjoint_negb_not_disjoint_witness :
  bitset_wf 8 {| words := [1022; 0]; size := 2 |} /\
  bitset_wf 8 {| words := [3584; 0]; size := 2 |} /\
  size {| words := [1022; 0]; size := 2 |} =
    size {| words := [3584; 0]; size := 2 |} /\
  (exists r,
     not_disjoint {| words := [1022; 0]; size := 2 |}
                  {| words := [3584; 0]; size := 2 |} = Ret r /\
     is_disjoint {| words := [1022; 0]; size := 2 |}
                 {| words := [3584; 0]; size := 2 |} = Ret (negb r)) /\
  (size {| words := [1022; 0]; size := 2 |} = 0 ->
   is_disjoint {| words := [1022; 0]; size := 2 |}
               {| words := [3584; 0]; size := 2 |} = Ret true /\
   not_disjoint {| words := [1022; 0]; size := 2 |}
                {| words := [3584; 0]; size := 2 |} = Ret false).
Proof.
  split; [compute_done|]. split; [compute_done|]. split; [reflexivity|].
  apply (is_disjoint_negb_not_disjoint 8); [compute_done | compute_done | reflexivity].
Defined.

Lemma bitset_create_correct_witness :
  (8 = 4 \/ 8 = 8) /\ UINT_MAX <= 2 ^ 64 - 1 /\ 0 <= 100 <= UINT_MAX /\
  exists b, bitset_create 8 (2 ^ 64 - 1) 100 = Ret b /\
    size b = ceil_div 100 (bits_per_word 8) /\
    bits_per_word 8 * (size b - 1) < 100 <= bits_per_word 8 * size b /\
    words b = replicate (Z.to_nat (size b)) 0 /\
    forall i, 0 <= i < 100 -> bit_is_set 8 b i = false.
Proof.
  split; [by right|]. split; [compute_done|]. split; [compute_done|].
  apply (bitset_create_correct 8 (2 ^ 64 - 1)); [by right | compute_done | compute_done].
Defined.

Lemma is_disjoint_correct_witness :
  (8 = 4 \/ 8 = 8) /\
  bitset_wf 8 {| words := [1022; 0]; size := 2 |} /\
  bitset_wf 8 {| words := [7168; 0]; size := 2 |} /\
  size {| words := [1022; 0]; size := 2 |} =
    size {| words := [7168; 0]; size := 2 |} /\
  exists r,
    is_disjoint {| words := [1022; 0]; size := 2 |}
                {| words := [7168; 0]; size := 2 |} = Ret r /\
    (r = true <->
     forall i, ~ (bit_is_set 8 {| words := [1022; 0]; size := 2 |} i = true /\
                  bit_is_set 8 {| words := [7168; 0]; size := 2 |} i = true)) /\
    (r = true <->
     forall j, 0 <= j <= size {| words := [1022; 0]; size := 2 |} - 1 ->
       Z.land (word {| words := [1022; 0]; size := 2 |} j)
              (word {| words := [7168; 0]; size := 2 |} j) = 0).
Proof.
  split; [by right|]. split; [compute_done|]. split; [compute_done|].
  split; [reflexivity|].
  apply (is_disjoint_correct 8); [by right | compute_done | compute_done | reflexivity].
Defined.

Lemma bitset_set_frame_witness :
  (8 = 4 \/ 8 = 8) /\
  bitset_wf 8 {| words := [0]; size := 1 |} /\
  valid_index 8 {| words := [0]; size := 1 |} 63 /\
  exists b', bitset_set 8 {| words := [0]; size := 1 |} 63 = Ret b' /\
    size b' = size {| words := [0]; size := 1 |} /\
    bit_is_set 8 b' 63 = true /\
    forall i, i <> 63 ->
      bit_is_set 8 b' i = bit_is_set 8 {| words := [0]; size := 1 |} i.
Proof.
  split; [by right|]. split; [compute_done|]. split; [compute_done|].
  apply (bitset_set_frame 8); [by right | compute_done | compute_done].
Defined.

Lemma bitset_fill_sequential_witness :
  (8 = 4 \/ 8 = 8) /\
  bitset_wf 8 {| words := [0; 0]; size := 2 |} /\
  valid_indices 8 {| words := [0; 0]; size := 2 |} [9; 10; 11] /\
  3 = Z.of_nat (length [9; 10; 11]) /\ 3 <= UINT_MAX /\
  Permutation [9; 10; 11] [11; 9; 10] /\
  exists b',
    bitset_fill 8 {| words := [0; 0]; size := 2 |} [9; 10; 11] 3 = Ret b' /\
    set_all 8 {| words := [0; 0]; size := 2 |} [9; 10; 11] = Ret b' /\
    bitset_fill 8 {| words := [0; 0]; size := 2 |} [11; 9; 10] 3 = Ret b'.
Proof.
  split; [by right|]. split; [compute_done|]. split; [compute_done|].
  split; [reflexivity|]. split; [compute_done|]. split; [compute_done|].
  apply (bitset_fill_sequential 8);
    [by right | compute_done | compute_done | reflexivity | compute_done | compute_done].
Defined.

Lemma bitset_set_idempotent_witness :
  (8 = 4 \/ 8 = 8) /\
  bitset_wf 8 {| words := [1022; 0]; size := 2 |} /\
  valid_index 8 {| words := [1022; 0]; size := 2 |} 70 /\
  exists b' b'',
    bitset_set 8 {| words := [1022; 0]; size := 2 |} 70 = Ret b' /\
    bitset_set 8 b' 70 = Ret b'' /\
    b'' = b' /\
    forall i, bit_is_set 8 b'' i = bit_is_set 8 b' i.
Proof.
  split; [by right|]. split; [compute_done|]. split; [compute_done|].
  apply (bitset_set_idempotent 8); [by right | compute_done | compute_done].
Defined.

Lemma is_disjoint_symmetric_witness :
  bitset_wf 8 {| words := [1022; 0]; size := 2 |} /\
  bitset_wf 8 {| words := [3584; 0]; size := 2 |} /\
  size {| words := [1022; 0]; size := 2 |} =
    size {| words := [3584; 0]; size := 2 |} /\
  exists r,
    is_disjoint {| words := [1022; 0]; size := 2 |}
                {| words := [3584; 0]; size := 2 |} = Ret r /\
    is_disjoint {| words := [3584; 0]; size := 2 |}
                {| words := [1022; 0]; size := 2 |} = Ret r.
Proof.
  split; [compute_done|]. split; [compute_done|]. split; [reflexivity|].
  apply (is_disjoint_symmetric 8); [compute_done | compute_done | reflexivity].
Defined.

Lemma bitset_create_zero_witness :
  (8 = 4 \/ 8 = 8) /\ UINT_MAX <= 2 ^ 64 - 1 /\
  bitset_create 8 (2 ^ 64 - 1) 0 = Ret {| words := []; size := 0 |} /\
  forall a b,
    bitset_create 8 (2 ^ 64 - 1) 0 = Ret a ->
    bitset_create 8 (2 ^ 64 - 1) 0 = Ret b ->
    is_disjoint a b = Ret true.
Proof.
  split; [by right|]. split; [compute_done|].
  apply (bitset_create_zero 8 (2 ^ 64 - 1)); [by right | compute_done].
Defined.

Lemma run_calls_monotone_witness :
  (8 = 4 \/ 8 = 8) /\
  bitset_wf 8 {| words := [1022; 0]; size := 2 |} /\
  Forall (valid_call 8 {| words := [1022; 0]; size := 2 |})
    [call_set 70; call_fill [9; 10; 11] 3;
     call_is_disjoint {| words := [7168; 0]; size := 2 |}; call_set 3] /\
  exists b',
    run_calls 8 {| words := [1022; 0]; size := 2 |}
      [call_set 70; call_fill [9; 10; 11] 3;
       call_is_disjoint {| words := [7168; 0]; size := 2 |}; call_set 3] = Ret b' /\
    forall i, bit_is_set 8 {| words := [1022; 0]; size := 2 |} i = true ->
      bit_is_set 8 b' i = true.
Proof.
  split; [by right|]. split; [compute_done|]. split; [compute_done|].
  apply (run_calls_monotone 8); [by right | compute_done | compute_done].
Defined.

Lemma double_ceil_exact_witness :
  (8 = 4 \/ 8 = 8) /\ UINT_MAX <= 2 ^ 64 - 1 /\ 0 <= 4294967295 <= UINT_MAX /\
  size_t_of_double (2 ^ 64 - 1)
    (ceil (double_div (double_of_Z 4294967295) (double_of_Z (bits_per_word 8)))) =
    Ret ((4294967295 + bits_per_word 8 - 1) / bits_per_word 8) /\
  double_exact (double_of_Z 4294967295) 4294967295 1 /\
  double_exact (double_div (double_of_Z 4294967295) (double_of_Z (bits_per_word 8)))
    4294967295 (bits_per_word 8) /\
  size_t_of_double (2 ^ 64 - 1)
    (ceil (double_div (double_of_Z 0) (double_of_Z (bits_per_word 8)))) = Ret 0.
Proof.
  split; [by right|]. split; [compute_done|]. split; [compute_done|].
  apply (double_ceil_exact 8 (2 ^ 64 - 1)); [by right | compute_done | compute_done].
Defined.

(** ** Instances of the further properties *)

Lemma is_disjoint_longer_right_witness :
  bitset_wf 8 {| words := [1022]; size := 1 |} /\
  bitset_wf 8 {| words := [7168; 1022]; size := 2 |} /\
  size {| words := [1022]; size := 1 |} <=
    size {| words := [7168; 1022]; size := 2 |} /\
  exists r,
    is_disjoint {| words := [1022]; size := 1 |}
                {| words := [7168; 1022]; size := 2 |} = Ret r /\
    (r = true <->
     forall j, 0 <= j < size {| words := [1022]; size := 1 |} ->
       Z.land (word {| words := [1022]; size := 1 |} j)
              (word {| words := [7168; 1022]; size := 2 |} j) = 0).
Proof.
  do 3 (split; [compute_done|]).
  apply (is_disjoint_longer_right 8); compute_done.
Defined.



Lemma not_disjoint_common_bit_witness :
  (8 = 4 \/ 8 = 8) /\
  bitset_wf 8 {| words := [1022; 0]; size := 2 |} /\
  bitset_wf 8 {| words := [3584; 0]; size := 2 |} /\
  size {| words := [1022; 0]; size := 2 |} =
    size {| words := [3584; 0]; size := 2 |} /\
  exists r,
    not_disjoint {| words := [1022; 0]; size := 2 |}
                 {| words := [3584; 0]; size := 2 |} = Ret r /\
    (r = true <->
     exists i,
       0 <= i < size {| words := [1022; 0]; size := 2 |} * bits_per_word 8 /\
       bit_is_set 8 {| words := [1022; 0]; size := 2 |} i = true /\
       bit_is_set 8 {| words := [3584; 0]; size := 2 |} i = true).
Proof.
  split; [by right|]. do 3 (split; [compute_done|]).
  apply (not_disjoint_common_bit 8); [by right | compute_done ..].
Defined.

Lemma is_disjoint_self_witness :
  (8 = 4 \/ 8 = 8) /\
  bitset_wf 8 {| words := [1022; 0]; size := 2 |} /\
  exists r,
    is_disjoint {| words := [1022; 0]; size := 2 |}
                {| words := [1022; 0]; size := 2 |} = Ret r /\
    (r = true <->
     forall i, bit_is_set 8 {| words := [1022; 0]; size := 2 |} i = false).
Proof.
  split; [by right|]. split; [compute_done|].
  apply (is_disjoint_self 8); [by right | compute_done].
Defined.

Lemma is_disjoint_bitset_create_witness :
  (8 = 4 \/ 8 = 8) /\ UINT_MAX <= 2 ^ 64 - 1 /\ 0 <= 100 <= UINT_MAX /\
  bitset_create 8 (2 ^ 64 - 1) 100 = Ret {| words := [0; 0]; size := 2 |} /\
  bitset_wf 8 {| words := [1022; 7]; size := 2 |} /\
  size {| words := [1022; 7]; size := 2 |} =
    size {| words := [0; 0]; size := 2 |} /\
  is_disjoint {| words := [0; 0]; size := 2 |}
              {| words := [1022; 7]; size := 2 |} = Ret true /\
  is_disjoint {| words := [1022; 7]; size := 2 |}
              {| words := [0; 0]; size := 2 |} = Ret true.
Proof.
  split; [by right|]. do 2 (split; [compute_done|]).
  split; [vm_compute; reflexivity|]. do 2 (split; [compute_done|]).
  apply (is_disjoint_bitset_create 8 (2 ^ 64 - 1) (or_intror eq_refl)) with 100;
    [compute_done | compute_done | vm_compute; reflexivity | compute_done
     | compute_done].
Defined.


Lemma bitset_set_undefined_iff_witness :
  (8 = 4 \/ 8 = 8) /\
  bitset_wf 8 {| words := [0]; size := 1 |} /\ 0 <= 64 /\
  (bitset_set 8 {| words := [0]; size := 1 |} 64 = Undefined <->
   size {| words := [0]; size := 1 |} * bits_per_word 8 <= 64).
Proof.
  split; [by right|]. do 2 (split; [compute_done|]).
  apply (bitset_set_undefined_iff 8); [by right | compute_done ..].
Defined.

Lemma bitset_fill_prefix_witness :
  0 <= 2 <= Z.of_nat (length [1; 2; 3]) /\ 2 <= UINT_MAX /\
  bitset_fill 8 {| words := [0]; size := 1 |} [1; 2; 3] 2 =
    set_all 8 {| words := [0]; size := 1 |}
      (map uint (take (Z.to_nat 2) [1; 2; 3])).
Proof.
  do 2 (split; [compute_done|]).
  apply (bitset_fill_prefix 8); compute_done.
Defined.

Lemma bitset_fill_overrun_witness :
  Z.of_nat (length [1]) < 2 /\ 2 <= UINT_MAX /\
  bitset_fill 8 {| words := [0]; size := 1 |} [1] 2 = Undefined.
Proof.
  do 2 (split; [compute_done|]).
  apply (bitset_fill_overrun 8); compute_done.
Defined.

Lemma bitset_fill_invalid_index_witness :
  (8 = 4 \/ 8 = 8) /\
  bitset_wf 8 {| words := [0]; size := 1 |} /\
  2 = Z.of_nat (length [1; -1]) /\ 2 <= UINT_MAX /\
  Exists (fun x => ~ valid_index 8 {| words := [0]; size := 1 |} (uint x)) [1; -1] /\
  bitset_fill 8 {| words := [0]; size := 1 |} [1; -1] 2 = Undefined.
Proof.
  split; [by right|]. do 4 (split; [compute_done|]).
  apply (bitset_fill_invalid_index 8); [by right | compute_done ..].
Defined.

Lemma bitset_fill_union_witness :
  (8 = 4 \/ 8 = 8) /\
  bitset_wf 8 {| words := [2; 0]; size := 2 |} /\
  valid_indices 8 {| words := [2; 0]; size := 2 |} [9; 70; 9] /\
  3 = Z.of_nat (length [9; 70; 9]) /\ 3 <= UINT_MAX /\
  exists b',
    bitset_fill 8 {| words := [2; 0]; size := 2 |} [9; 70; 9] 3 = Ret b' /\
    size b' = size {| words := [2; 0]; size := 2 |} /\
    forall i,
      bit_is_set 8 b' i =
        existsb (Z.eqb i) [9; 70; 9] ||
        bit_is_set 8 {| words := [2; 0]; size := 2 |} i.
Proof.
  split; [by right|]. do 4 (split; [compute_done|]).
  apply (bitset_fill_union 8); [by right | compute_done ..].
Defined.

Lemma bitset_fill_app_witness :
  2 = Z.of_nat (length [1; 2]) /\ 1 = Z.of_nat (length [70]) /\
  2 + 1 <= UINT_MAX /\
  bitset_fill 8 {| words := [0; 0]; size := 2 |} ([1; 2] ++ [70]) (2 + 1) =
    let* b1 := bitset_fill 8 {| words := [0; 0]; size := 2 |} [1; 2] 2 in
    bitset_fill 8 b1 [70] 1.
Proof.
  do 3 (split; [compute_done|]).
  apply (bitset_fill_app 8); compute_done.
Defined.

Lemma bitset_fill_idempotent_witness :
  (8 = 4 \/ 8 = 8) /\
  bitset_wf 8 {| words := [2; 0]; size := 2 |} /\
  valid_indices 8 {| words := [2; 0]; size := 2 |} [9; 70; 9] /\
  3 = Z.of_nat (length [9; 70; 9]) /\ 3 <= UINT_MAX /\
  exists b',
    bitset_fill 8 {| words := [2; 0]; size := 2 |} [9; 70; 9] 3 = Ret b' /\
    bitset_fill 8 b' [9; 70; 9] 3 = Ret b'.
Proof.
  split; [by right|]. do 4 (split; [compute_done|]).
  apply (bitset_fill_idempotent 8); [by right | compute_done ..].
Defined.

Lemma run_calls_invariant_witness :
  (8 = 4 \/ 8 = 8) /\
  bitset_wf 8 {| words := [1022; 0]; size := 2 |} /\
  Forall (valid_call 8 {| words := [1022; 0]; size := 2 |})
    [call_fill [9; 10; 11] 3; call_set 127;
     call_not_disjoint {| words := [7168; 0]; size := 2 |}] /\
  exists b',
    run_calls 8 {| words := [1022; 0]; size := 2 |}
      [call_fill [9; 10; 11] 3; call_set 127;
       call_not_disjoint {| words := [7168; 0]; size := 2 |}] = Ret b' /\
    bitset_wf 8 b' /\ size b' = size {| words := [1022; 0]; size := 2 |}.
Proof.
  split; [by right|]. do 2 (split; [compute_done|]).
  apply (run_calls_invariant 8); [by right | compute_done ..].
Defined.

Lemma bitset_create_capacity_witness :
  (8 = 4 \/ 8 = 8) /\ UINT_MAX <= 2 ^ 64 - 1 /\ 0 <= 100 <= UINT_MAX /\
  bitset_create 8 (2 ^ 64 - 1) 100 = Ret {| words := [0; 0]; size := 2 |} /\
  bitset_wf 8 {| words := [0; 0]; size := 2 |} /\
  100 <= size {| words := [0; 0]; size := 2 |} * bits_per_word 8
      < 100 + bits_per_word 8 /\
  size {| words := [0; 0]; size := 2 |} * bits_per_word 8 <= UINT_MAX + 1 /\
  forall index,
    valid_index 8 {| words := [0; 0]; size := 2 |} index -> index <= UINT_MAX.
Proof.
  split; [by right|]. do 2 (split; [compute_done|]).
  split; [vm_compute; reflexivity|].
  apply (bitset_create_capacity 8 (2 ^ 64 - 1) (or_intror eq_refl));
    [compute_done | compute_done | vm_compute; reflexivity].
Defined.

Lemma bitset_create_set_witness :
  (8 = 4 \/ 8 = 8) /\ UINT_MAX <= 2 ^ 64 - 1 /\ 0 <= 100 <= UINT_MAX /\
  bitset_create 8 (2 ^ 64 - 1) 100 = Ret {| words := [0; 0]; size := 2 |} /\
  0 <= 99 < 100 /\
  exists b',
    bitset_set 8 {| words := [0; 0]; size := 2 |} 99 = Ret b' /\
    forall i, bit_is_set 8 b' i = (i =? 99).
Proof.
  split; [by right|]. do 2 (split; [compute_done|]).
  split; [vm_compute; reflexivity|]. split; [compute_done|].
  apply (bitset_create_set 8 (2 ^ 64 - 1) (or_intror eq_refl)) with 100;
    [compute_done | compute_done | vm_compute; reflexivity | compute_done].
Defined.

Lemma is_disjoint_of_fills_witness :
  (8 = 4 \/ 8 = 8) /\ UINT_MAX <= 2 ^ 64 - 1 /\ 0 <= 100 <= UINT_MAX /\
  bitset_create 8 (2 ^ 64 - 1) 100 = Ret {| words := [0; 0]; size := 2 |} /\
  Forall (fun x => 0 <= x < 100 /\ x <= INT_MAX) [1; 2; 3; 4; 5; 6; 7; 8; 9] /\
  Forall (fun x => 0 <= x < 100 /\ x <= INT_MAX) [9; 10; 11] /\
  9 = Z.of_nat (length [1; 2; 3; 4; 5; 6; 7; 8; 9]) /\ 9 <= UINT_MAX /\
  3 = Z.of_nat (length [9; 10; 11]) /\ 3 <= UINT_MAX /\
  exists a b,
    bitset_fill 8 {| words := [0; 0]; size := 2 |}
      [1; 2; 3; 4; 5; 6; 7; 8; 9] 9 = Ret a /\
    bitset_fill 8 {| words := [0; 0]; size := 2 |} [9; 10; 11] 3 = Ret b /\
    is_disjoint a b =
      Ret (forallb (fun x => negb (existsb (Z.eqb x) [9; 10; 11]))
             [1; 2; 3; 4; 5; 6; 7; 8; 9]).
Proof.
  split; [by right|]. do 2 (split; [compute_done|]).
  split; [vm_compute; reflexivity|]. do 6 (split; [compute_done|]).
  apply (is_disjoint_of_fills 8 (2 ^ 64 - 1) (or_intror eq_refl)) with 100;
    [compute_done | compute_done | vm_compute; reflexivity | compute_done ..].
Defined.
